(** * Telegram chat cleaner bot: message ledger and cleanup engine

    A shallow embedding of [messages_repo.py] (the [MessagesRepo] DAO over
    the [messages] table) and of the cleanup part of [cleaner_bot.py]
    ([_abandon_chat], [_send_status_message], [_handle_chat_id_migration],
    [_retain_message], [_deletion_limit], [_chat_cleanup],
    [_perform_total_cleanup]) and of its update handlers
    ([keep_callback_messages], [_receive_incoming_message],
    [_chat_created], [_user_added], [_user_removed], [_chat_migrated],
    [_cleanup], [_error_callback]), followed by the properties of the
    retention and cleanup engine.

    Conventions.
    - Integers ([message_id], [chat_id]) are [Z]; a [datetime] is the [Z]
      number of microseconds since the epoch, so that [timedelta(days=2)]
      is [172800000000].
    - The [messages] table is the list of its rows.  Its declared primary
      key is the single column [message_id]; [pk_unique] is the
      corresponding integrity constraint.
    - The set [bot_data['active_groups']] is a [gset Z]; the bidict
      [bot_data['group_joiner_chats']] is the [gmap Z string] of its
      forward direction.
    - The Telegram transport and the clock are an environment [Env] whose
      answers are indexed by the number of external calls performed so
      far ([tick]): a run of [_chat_cleanup] started at tick [t] reads
      the clock at [t], makes its deletion calls at [t + 1], [t + 2], ...
      and sends its report at the tick after the last deletion call.
      Every transport call and the two log lines that delimit a per-chat
      cleanup are recorded in a trace.
    - Python exceptions are values of [Outcome]: a function that can raise
      returns [Raise e] together with the state it has reached. *)

From stdpp Require Import gmap strings list sorting pretty.

#[local] Set Warnings "-clear-no-such-hyp".

Local Open Scope Z_scope.

(** ** messages_repo.py *)

(** [class MessageEntity(Base)]: the three stored columns. *)
Record MessageEntity := mkMessageEntity {
  message_id : Z;   (* Column(Integer, primary_key = True) *)
  chat_id : Z;      (* Column(Integer) *)
  timestamp : Z     (* Column(DATETIME) *)
}.

Global Instance MessageEntity_eq_dec : EqDecision MessageEntity.
Proof. solve_decision. Defined.

(** The rows of the [messages] table. *)
Abbreviation Table := (list MessageEntity).

(** Primary-key constraint of the table: no two rows share [message_id]. *)
Definition pk_unique (T : Table) : Prop := NoDup (message_id <$> T).

Global Instance pk_unique_dec T : Decision (pk_unique T).
Proof. unfold pk_unique. apply _. Defined.

(** [ORDER BY timestamp DESC]: the row [a] may precede the row [b]. *)
Definition newest_first (a b : MessageEntity) : Prop :=
  timestamp b ≤ timestamp a.

Global Instance newest_first_dec a b : Decision (newest_first a b).
Proof. unfold newest_first. apply _. Defined.

Module MessagesRepo.

(** [query(MessageEntity).order_by(timestamp.desc())
      .filter(chat_id == chat_id, timestamp > min_timestamp).all()]:
    the rows selected by the [WHERE] clause, then sorted.  Rows with
    equal timestamps come in the order the sort leaves them (SQL leaves
    it open). *)
Definition get_chat_messages (T : Table) (chat : Z) (min_timestamp : Z)
  : list MessageEntity :=
  merge_sort newest_first
    (filter (λ r, chat_id r = chat ∧ min_timestamp < timestamp r) T).

(** [query.filter(chat_id == chat_id).delete()]. *)
Definition delete_chat_messages (chat : Z) (T : Table) : Table :=
  filter (λ r, chat_id r ≠ chat) T.

(** [session.merge(message)]: the row with the primary key of [message]
    is looked up; when present its columns are overwritten with those of
    [message], otherwise [message] is inserted as a new row. *)
Definition add_message (message : MessageEntity) (T : Table) : Table :=
  if decide (message_id message ∈ message_id <$> T)
  then (λ r, if decide (message_id r = message_id message)
             then message else r) <$> T
  else T ++ [message].

(** [session.delete(message)] for an entity that the session has loaded,
    that is, a row that a query returned, as [_chat_cleanup] passes it: a
    [DELETE] by primary key.  For any other entity SQLAlchemy raises
    [InvalidRequestError] and deletes nothing; that case is outside this
    definition. *)
Definition remove_message (message : MessageEntity) (T : Table) : Table :=
  filter (λ r, message_id r ≠ message_id message) T.

(** [query.filter(chat_id == original).update({chat_id: updated})]. *)
Definition update_chat_id (original_chat_id updated_chat_id : Z)
    (T : Table) : Table :=
  (λ r, if decide (chat_id r = original_chat_id)
        then mkMessageEntity (message_id r) updated_chat_id (timestamp r)
        else r) <$> T.

(** [query(MessageEntity.chat_id.distinct())]. *)
Definition get_all_chat_ids (T : Table) : list Z :=
  remove_dups (chat_id <$> T).

(** [query.filter(timestamp < date).delete()]. *)
Definition remove_outdated_messages (date : Z) (T : Table) : Table :=
  filter (λ r, ¬ timestamp r < date) T.

End MessagesRepo.

(** ** cleaner_bot.py: data *)

(** [telegram.Chat.type]. *)
Inductive ChatType := PRIVATE | GROUP | SUPERGROUP | CHANNEL.

Global Instance ChatType_eq_dec : EqDecision ChatType.
Proof. solve_decision. Defined.

(** The fields of [telegram.Message] that the bot reads. *)
Record Message := mkMessage {
  msg_message_id : Z;
  msg_chat_id : Z;
  msg_chat_type : ChatType;
  msg_date : Z
}.

(** Exceptions that reach the cleanup code: the classes of
    [telegram.error] and Python's own [AttributeError]. *)
Inductive Exn :=
  | Unauthorized
  | BadRequest
  | TimedOut
  | NetworkError
  | ChatMigrated (new_chat_id : Z)
  | TelegramError
  | AttributeError.

Global Instance Exn_eq_dec : EqDecision Exn.
Proof. solve_decision. Defined.

(** The outcome of a call: a returned value or a raised exception. *)
Inductive Outcome (A : Type) :=
  | Return (a : A)
  | Raise (e : Exn).
Arguments Return {A} a.
Arguments Raise {A} e.

(** What the bot does to the outside during a cleanup, in order. *)
Inductive Event :=
  | LogInitiated (chat : Z)                          (* "Initiated chat (..) cleanup." *)
  | CallDelete (chat : Z) (message : Z)              (* bot.delete_message *)
  | CallSend (chat : Z) (text : string) (silent : bool) (* bot.send_message *)
  | LogCleanupFailed (chat : Z) (e : Exn).           (* "Failed to perform chat/.. cleanup" *)

Global Instance Event_eq_dec : EqDecision Event.
Proof. solve_decision. Defined.

(** The environment: the clock and the Telegram transport.  The first
    argument of each answer is the number of external calls made so far. *)
Record Env := mkEnv {
  utcnow : nat → Z;
  delete_message : nat → Z → Z → Outcome bool;
  send_message : nat → Z → string → bool → Outcome Message
}.

(** The outside world as the run has shaped it so far. *)
Record World := mkWorld {
  tick : nat;
  trace : list Event
}.

(** The state the bot owns: [bot_data] and the repository. *)
Record Bot := mkBot {
  active_groups : gset Z;
  group_joiner_chats : gmap Z string;
  messages : Table
}.

(** The parts of a [telegram.Update] that the handlers read:
    [update.message] and, of that message, the service fields beyond those
    of [Message]; users are given by their [User.name].  For the updates
    the handlers receive, [update.effective_chat] is the chat of
    [update.message]. *)
Record Update := mkUpdate {
  upd_message : option Message;
  new_chat_members : list string;
  left_chat_member : option string;
  migrate_from_chat_id : option Z;
  migrate_to_chat_id : option Z
}.

(** A job of the job queue:
    [job_queue.run_once(self._perform_chat_cleanup, when, context=chat_id)]. *)
Record Job := mkJob {
  job_when : Z;
  job_context : Z
}.

(** ** cleaner_bot.py: operations *)

Module CleanerBot.

(** [timedelta(days=d)] in microseconds. *)
Definition timedelta_days (d : Z) : Z := d * 86400 * 1000000.

(** One more external call has been made. *)
Definition step (w : World) : World :=
  {| tick := S (tick w); trace := trace w |}.

(** Record an event at the end of the trace. *)
Definition emit (ev : Event) (w : World) : World :=
  {| tick := tick w; trace := trace w ++ [ev] |}.

(** Replace the repository contents of the bot. *)
Definition with_messages (f : Table → Table) (b : Bot) : Bot :=
  {| active_groups := active_groups b;
     group_joiner_chats := group_joiner_chats b;
     messages := f (messages b) |}.

(** [CleanerBot._abandon_chat]. *)
Definition _abandon_chat (chat : Z) (b : Bot) : Bot :=
  {| active_groups := active_groups b ∖ {[chat]};
     group_joiner_chats :=
       if decide (is_Some (group_joiner_chats b !! chat))
       then delete chat (group_joiner_chats b)
       else group_joiner_chats b;
     messages := MessagesRepo.delete_chat_messages chat (messages b) |}.

(** [CleanerBot._handle_chat_id_migration]. *)
Definition _handle_chat_id_migration (old_chat_id new_chat_id : Z) (b : Bot)
  : Bot :=
  {| active_groups := (active_groups b ∖ {[old_chat_id]}) ∪ {[new_chat_id]};
     group_joiner_chats := group_joiner_chats b;
     messages :=
       MessagesRepo.update_chat_id old_chat_id new_chat_id (messages b) |}.

(** [CleanerBot._retain_message]; [None] is Python's [None], on which the
    attribute access [message.chat] raises [AttributeError]. *)
Definition _retain_message (message : option Message) (b : Bot)
  : Bot * Outcome unit :=
  match message with
  | None => (b, Raise AttributeError)
  | Some m =>
      if decide (msg_chat_type m = GROUP ∨ msg_chat_type m = SUPERGROUP)
      then (with_messages
              (MessagesRepo.add_message
                 (mkMessageEntity (msg_message_id m) (msg_chat_id m) (msg_date m)))
              b, Return ())
      else (b, Return ())
  end.

(** The report of a per-chat cleanup:
    [f"Removed {len(deleted_messages)} recent messages. Failed to remove: {fails_count}."] *)
Definition report_message (deleted : nat) (fails_count : Z) : string :=
  "Removed " +:+ pretty deleted +:+ " recent messages. Failed to remove: "
    +:+ pretty fails_count +:+ ".".

Section Cleanup.
Context (env : Env).

(** [CleanerBot._deletion_limit]: [datetime.utcnow() - timedelta(days=2)]. *)
Definition _deletion_limit (w : World) : World * Z :=
  (step w, utcnow env (tick w) - timedelta_days 2).

(** [CleanerBot._send_status_message]: [Unauthorized] is caught, the chat
    abandoned and [None] returned; other exceptions propagate. *)
Definition _send_status_message (chat : Z) (text : string) (silent : bool)
    (w : World) (b : Bot) : World * Bot * Outcome (option Message) :=
  let w' := emit (CallSend chat text silent) (step w) in
  match send_message env (tick w) chat text silent with
  | Return m => (w', b, Return (Some m))
  | Raise Unauthorized => (w', _abandon_chat chat b, Return None)
  | Raise e => (w', b, Raise e)
  end.

(** The [for message_entity in recent_messages] loop of [_chat_cleanup];
    the last component is the flag [unauthorized]. *)
Fixpoint _chat_cleanup_loop (chat : Z) (recent_messages : list MessageEntity)
    (w : World) (b : Bot) (deleted_messages : list MessageEntity)
  : World * Bot * list MessageEntity * bool :=
  match recent_messages with
  | [] => (w, b, deleted_messages, false)
  | message_entity :: rest =>
      let w' := emit (CallDelete chat (message_id message_entity)) (step w) in
      match delete_message env (tick w) chat (message_id message_entity) with
      | Raise Unauthorized => (w', b, deleted_messages, true)
      | Raise _ => _chat_cleanup_loop chat rest w' b deleted_messages
      | Return false => _chat_cleanup_loop chat rest w' b deleted_messages
      | Return true =>
          _chat_cleanup_loop chat rest w'
            (with_messages (MessagesRepo.remove_message message_entity) b)
            (deleted_messages ++ [message_entity])
      end
  end.

(** [CleanerBot._chat_cleanup]. *)
Definition _chat_cleanup (chat : Z) (w : World) (b : Bot)
  : World * Bot * Outcome unit :=
  let w0 := emit (LogInitiated chat) w in
  let '(w1, deletion_threshold) := _deletion_limit w0 in
  let recent_messages :=
    MessagesRepo.get_chat_messages (messages b) chat deletion_threshold in
  let '(w2, b2, deleted_messages, unauthorized) :=
    _chat_cleanup_loop chat recent_messages w1 b [] in
  if unauthorized then (w2, _abandon_chat chat b2, Return ())
  else
    let fails_count :=
      Z.of_nat (length recent_messages) - Z.of_nat (length deleted_messages) in
    let text := report_message (length deleted_messages) fails_count in
    match _send_status_message chat text true w2 b2 with
    | (w3, b3, Raise e) => (w3, b3, Raise e)
    | (w3, b3, Return message) =>
        let '(b4, r) := _retain_message message b3 in (w3, b4, r)
    end.

(** [CleanerBot._perform_chat_cleanup]: the job-queue entry point. *)
Definition _perform_chat_cleanup (chat : Z) (w : World) (b : Bot)
  : World * Bot * Outcome unit :=
  _chat_cleanup chat w b.

(** The [for group_chat_id in active_groups] loop of
    [_perform_total_cleanup], with its [try]/[except:]. *)
Fixpoint _total_cleanup_loop (chats : list Z) (w : World) (b : Bot)
  : World * Bot :=
  match chats with
  | [] => (w, b)
  | group_chat_id :: rest =>
      match _chat_cleanup group_chat_id w b with
      | (w', b', Return _) => _total_cleanup_loop rest w' b'
      | (w', b', Raise e) =>
          _total_cleanup_loop rest (emit (LogCleanupFailed group_chat_id e) w') b'
      end
  end.

(** [CleanerBot._perform_total_cleanup]: the loop runs over a copy of the
    active set, then the outdated rows are removed. *)
Definition _perform_total_cleanup (w : World) (b : Bot) : World * Bot :=
  let snapshot := elements (active_groups b) in
  let '(w1, b1) := _total_cleanup_loop snapshot w b in
  let '(w2, limit) := _deletion_limit w1 in
  (w2, with_messages (MessagesRepo.remove_outdated_messages limit) b1).

End Cleanup.

(** *** Update handlers *)

(** What a handler callback is given and leaves behind: the transport,
    [bot_data] with the repository, and the job queue; it returns a
    [Message], or [None]. *)
Definition Callback : Type :=
  Update → World → Bot → list Job →
  World * Bot * list Job * Outcome (option Message).

(** Python's [x or y] on an optional integer: [None] and [0] are falsy. *)
Definition py_or (x : option Z) (y : Z) : Z :=
  match x with
  | Some v => if decide (v = 0) then y else v
  | None => y
  end.

(** [self._active_groups.add(chat)]. *)
Definition add_active_group (chat : Z) (b : Bot) : Bot :=
  {| active_groups := active_groups b ∪ {[chat]};
     group_joiner_chats := group_joiner_chats b;
     messages := messages b |}.

(** The greeting of [_chat_created] and [_user_added]. *)
Definition greeting : string :=
  "Hello, this is a (" +:+
  "*group) chat cleaning bot. Please, use /help command to get more info.".

(** [Decorators.keep_callback_messages]: the incoming message is retained,
    then the callback runs, then its result is retained when it is a
    [Message]. *)
Definition keep_callback_messages (callback : Callback) : Callback :=
  λ update w b jobs,
    match _retain_message (upd_message update) b with
    | (b1, Raise e) => (w, b1, jobs, Raise e)
    | (b1, Return _) =>
        match callback update w b1 jobs with
        | (w2, b2, jobs2, Raise e) => (w2, b2, jobs2, Raise e)
        | (w2, b2, jobs2, Return None) => (w2, b2, jobs2, Return None)
        | (w2, b2, jobs2, Return (Some out_message)) =>
            match _retain_message (Some out_message) b2 with
            | (b3, Raise e) => (w2, b3, jobs2, Raise e)
            | (b3, Return _) => (w2, b3, jobs2, Return (Some out_message))
            end
        end
    end.

(** [Decorators.log_messages]: the callback, then a log line. *)
Definition log_messages (callback : Callback) : Callback := callback.

(** [CleanerBot._receive_incoming_message]: the body is [pass]. *)
Definition _receive_incoming_message : Callback :=
  log_messages (keep_callback_messages (λ _ w b jobs, (w, b, jobs, Return None))).

Section Handlers.
Context (env : Env) (bot_name : string).

(** [context.bot.send_message(chat, text)] as the result of a callback. *)
Definition send_and_return (chat : Z) (text : string) (w : World) (b : Bot)
    (jobs : list Job) : World * Bot * list Job * Outcome (option Message) :=
  let w' := emit (CallSend chat text false) (step w) in
  match send_message env (tick w) chat text false with
  | Return m => (w', b, jobs, Return (Some m))
  | Raise e => (w', b, jobs, Raise e)
  end.

(** [CleanerBot._chat_created]. *)
Definition _chat_created : Callback :=
  keep_callback_messages (λ update w b jobs,
    match upd_message update with
    | None => (w, b, jobs, Raise AttributeError)
    | Some m =>
        send_and_return (msg_chat_id m) greeting w
          (add_active_group (msg_chat_id m) b) jobs
    end).

(** The [for user in new_users] loop of [_user_added]: it returns at the
    first user that is the bot. *)
Fixpoint _user_added_loop (chat : Z) (new_users : list string)
    (w : World) (b : Bot) (jobs : list Job)
  : World * Bot * list Job * Outcome (option Message) :=
  match new_users with
  | [] => (w, b, jobs, Return None)
  | user :: rest =>
      if decide (user = bot_name)
      then send_and_return chat greeting w (add_active_group chat b) jobs
      else _user_added_loop chat rest w b jobs
  end.

(** [CleanerBot._user_added]. *)
Definition _user_added : Callback :=
  keep_callback_messages (λ update w b jobs,
    match upd_message update with
    | None => (w, b, jobs, Raise AttributeError)
    | Some m =>
        if decide (msg_chat_type m = GROUP ∨ msg_chat_type m = SUPERGROUP)
        then _user_added_loop (msg_chat_id m) (new_chat_members update) w b jobs
        else (w, b, jobs, Return None)
    end).

(** [CleanerBot._user_removed]. *)
Definition _user_removed : Callback :=
  keep_callback_messages (λ update w b jobs,
    match upd_message update with
    | None => (w, b, jobs, Raise AttributeError)
    | Some m =>
        if decide (msg_chat_type m = GROUP ∨ msg_chat_type m = SUPERGROUP)
        then match left_chat_member update with
             | None => (w, b, jobs, Raise AttributeError)
             | Some removed_user =>
                 if decide (removed_user = bot_name)
                 then (w, _abandon_chat (msg_chat_id m) b, jobs, Return None)
                 else (w, b, jobs, Return None)
             end
        else (w, b, jobs, Return None)
    end).

(** [CleanerBot._chat_migrated]; it is not decorated. *)
Definition _chat_migrated : Callback :=
  λ update w b jobs,
    match upd_message update with
    | None => (w, b, jobs, Raise AttributeError)
    | Some m =>
        if decide (msg_chat_type m = GROUP ∨ msg_chat_type m = SUPERGROUP)
        then
          let old_chat_id := py_or (migrate_from_chat_id update) (msg_chat_id m) in
          let new_chat_id := py_or (migrate_to_chat_id update) (msg_chat_id m) in
          (w, _handle_chat_id_migration old_chat_id new_chat_id b, jobs,
           Return None)
        else (w, b, jobs, Return None)
    end.

(** [CleanerBot._cleanup]: in a group the per-chat cleanup is scheduled in
    2 seconds; elsewhere a reply is sent, and not returned. *)
Definition _cleanup : Callback :=
  keep_callback_messages (λ update w b jobs,
    match upd_message update with
    | None => (w, b, jobs, Raise AttributeError)
    | Some m =>
        if decide (msg_chat_type m = GROUP ∨ msg_chat_type m = SUPERGROUP)
        then (w, b, jobs ++ [mkJob 2 (msg_chat_id m)], Return None)
        else
          match send_and_return (msg_chat_id m)
                  "This command is not supposed to work here. Use /help to get more info."
                  w b jobs with
          | (w', b', jobs', Raise e) => (w', b', jobs', Raise e)
          | (w', b', jobs', Return _) => (w', b', jobs', Return None)
          end
    end).

(** Running a scheduled job: [_perform_chat_cleanup] reads the chat from
    [context.job.context]. *)
Definition run_job (job : Job) (w : World) (b : Bot)
  : World * Bot * Outcome unit :=
  _perform_chat_cleanup env (job_context job) w b.

(** [CleanerBot._error_callback]: [context.error] is raised again and only
    [ChatMigrated] is caught. *)
Definition _error_callback (update : option Update) (error : Exn) (b : Bot)
  : Bot * Outcome unit :=
  match error with
  | ChatMigrated new_chat_id =>
      match update with
      | None => (b, Return ())
      | Some u =>
          match upd_message u with
          | None => (b, Raise AttributeError)
          | Some m =>
              (_handle_chat_id_migration (msg_chat_id m) new_chat_id b, Return ())
          end
      end
  | e => (b, Raise e)
  end.

End Handlers.

End CleanerBot.

Import CleanerBot.

(** ** Reading a trace *)

(** The chats for which a cleanup was logged as initiated, in order. *)
Definition initiated_chats (evs : list Event) : list Z :=
  omap (λ ev, match ev with LogInitiated c => Some c | _ => None end) evs.

(** The [(chat_id, message_id)] arguments of the deletion calls, in order. *)
Definition deletion_attempts (evs : list Event) : list (Z * Z) :=
  omap (λ ev, match ev with CallDelete c m => Some (c, m) | _ => None end) evs.

(** What a run has added to the trace of the world it started from. *)
Definition new_events (w w' : World) : list Event :=
  drop (length (trace w)) (trace w').

(** Outcomes can be compared. *)
Global Instance Outcome_eq_dec `{EqDecision A} : EqDecision (Outcome A).
Proof. solve_decision. Defined.

(** The rows of [l] whose deletion call returned [True], when the call for
    the row at position [j] is made at tick [t + j]. *)
Definition successful_deletions (env : Env) (chat : Z) (t : nat)
    (l : list MessageEntity) : list MessageEntity :=
  omap id
    (imap (λ j e, if decide (delete_message env (t + j)%nat chat (message_id e)
                             = Return true)
                  then Some e else None) l).

(** The chat an event is about. *)
Definition event_chat (ev : Event) : Z :=
  match ev with
  | LogInitiated c | CallDelete c _ | CallSend c _ _ | LogCleanupFailed c _ => c
  end.

(** The row [_retain_message] stores for a message. *)
Definition entity_of (m : Message) : MessageEntity :=
  mkMessageEntity (msg_message_id m) (msg_chat_id m) (msg_date m).

(** The chat types whose messages are retained. *)
Definition in_group (m : Message) : Prop :=
  msg_chat_type m = GROUP ∨ msg_chat_type m = SUPERGROUP.

(** ** The sweep, chat by chat *)

(** What a global cleanup has to carry from one chat of the snapshot to
    the next, in the words of the specification: the per-chat cleanup of
    the chat is run on the state reached so far; whether it returns or
    raises, the state it leaves is the one the next chat starts from, and
    a failure adds its log line and nothing else. *)
Definition after_chat_cleanup (env : Env) (st : World * Bot) (chat : Z)
  : World * Bot :=
  match _chat_cleanup env chat st.1 st.2 with
  | (w', b', Return _) => (w', b')
  | (w', b', Raise e) => (emit (LogCleanupFailed chat e) w', b')
  end.

(** The tick reached after a trace that started at tick [t]: a cleanup
    reads the clock once, right after logging its start, every transport
    call takes one tick, and logging a failure takes none. *)
Fixpoint next_tick (t : nat) (evs : list Event) : nat :=
  match evs with
  | [] => t
  | LogCleanupFailed _ _ :: rest => next_tick t rest
  | _ :: rest => next_tick (S t) rest
  end.

(** The transport calls of a trace that started at tick [t], each with the
    tick at which it was made, that is, the index at which the
    environment was asked for its answer. *)
Fixpoint timed_calls (t : nat) (evs : list Event) : list (nat * Event) :=
  match evs with
  | [] => []
  | LogInitiated _ :: rest => timed_calls (S t) rest
  | LogCleanupFailed _ _ :: rest => timed_calls t rest
  | ev :: rest => (t, ev) :: timed_calls (S t) rest
  end.

(** Among the timed calls [calls], a deletion or report call for [chat]
    that the environment answers with [Unauthorized] at its tick. *)
Definition refused_call (env : Env) (chat : Z) (calls : list (nat * Event))
  : Prop :=
  ∃ t, (∃ m, (t, CallDelete chat m) ∈ calls ∧
             delete_message env t chat m = Raise Unauthorized) ∨
       (∃ text, (t, CallSend chat text true) ∈ calls ∧
                send_message env t chat text true = Raise Unauthorized).

(** ** Concrete runs *)

(** A clock reading whose cutoff is [1000]. *)
Definition now0 : Z := timedelta_days 2 + 1000.

Definition world0 : World := mkWorld 0 [].

(** Chat 100 with five recent messages, numbered newest first, and one
    message of chat 200. *)
Definition ledger5 : Table :=
  [mkMessageEntity 1 100 1050; mkMessageEntity 2 100 1040;
   mkMessageEntity 3 100 1030; mkMessageEntity 4 100 1020;
   mkMessageEntity 5 100 1010; mkMessageEntity 9 200 1030].

Definition bot5 : Bot := mkBot {[100; 200]} ∅ ledger5.

(** Deleting message 3 raises [Unauthorized]; everything else works. *)
Definition env_third_unauthorized : Env :=
  mkEnv (λ _, now0)
        (λ _ _ m, if decide (m = 3) then Raise Unauthorized else Return true)
        (λ _ c _ _, Return (mkMessage 77 c SUPERGROUP now0)).

(** Chat 100 with two recent messages. *)
Definition bot2 : Bot :=
  mkBot {[100]} ∅ [mkMessageEntity 1 100 1050; mkMessageEntity 2 100 1040].

(** Deletions work, but sending to the chat raises [Unauthorized]. *)
Definition env_send_unauthorized : Env :=
  mkEnv (λ _, now0) (λ _ _ _, Return true) (λ _ _ _ _, Raise Unauthorized).

(** Chat 200 whose only message is older than the cutoff. *)
Definition bot_idle : Bot := mkBot {[200]} ∅ [mkMessageEntity 4 200 900].

(** Everything works; the report gets [message_id] 77. *)
Definition env_ok : Env :=
  mkEnv (λ _, now0) (λ _ _ _, Return true)
        (λ _ c _ _, Return (mkMessage 77 c SUPERGROUP now0)).

(** Chats 1 and 2 are active; chat 1 has one message, sent exactly at the
    cutoff. *)
Definition bot_at_cutoff : Bot := mkBot {[1; 2]} ∅ [mkMessageEntity 7 1 1000].

(** Chat 1 alone is active, with one message sent exactly at the cutoff. *)
Definition bot_one : Bot := mkBot {[1]} ∅ [mkMessageEntity 7 1 1000].


(** Everything works; the report sent to chat 2 gets [message_id] 7, the
    reports of other chats get 50. *)
Definition env_report_collides : Env :=
  mkEnv (λ _, now0) (λ _ _ _, Return true)
        (λ _ c _ _,
           Return (mkMessage (if decide (c = 2) then 7 else 50) c SUPERGROUP now0)).

(** Everything works, and the clock advances by one microsecond per
    reading. *)
Definition env_clock_advances : Env :=
  mkEnv (λ t, now0 + Z.of_nat t) (λ _ _ _, Return true)
        (λ _ c _ _, Return (mkMessage 77 c SUPERGROUP now0)).

(** Chats 1, 2 and 3 are active, each with one recent message, and one
    outdated message is left of a chat that is no longer active. *)
Definition bot3 : Bot :=
  mkBot {[1; 2; 3]} ∅
    [mkMessageEntity 11 1 1010; mkMessageEntity 12 2 1020;
     mkMessageEntity 13 3 1030; mkMessageEntity 14 4 500].

(** Deletions work; sending the report to chat 2 times out. *)
Definition env_chat2_fails : Env :=
  mkEnv (λ _, now0) (λ _ _ _, Return true)
        (λ _ c _ _, if decide (c = 2) then Raise TimedOut
                    else Return (mkMessage (70 + c) c SUPERGROUP now0)).

(** Deleting message 2 times out and deleting message 4 is refused with
    [False]; everything else works. *)
Definition env_transient : Env :=
  mkEnv (λ _, now0)
        (λ _ _ mid, if decide (mid = 2) then Raise TimedOut
                    else if decide (mid = 4) then Return false
                    else Return true)
        (λ _ c _ _, Return (mkMessage 77 c SUPERGROUP now0)).

(** The name of the bot in the concrete runs. *)
Definition bot0_name : string := "@cleaner_bot".

(** A message of supergroup 100 that carries no service field. *)
Definition update_plain : Update :=
  mkUpdate (Some (mkMessage 42 100 SUPERGROUP 1060)) [] None None None.

(** The bot joins supergroup 100 together with another user. *)
Definition update_bot_joins : Update :=
  mkUpdate (Some (mkMessage 42 100 SUPERGROUP 1060))
    ["@alice"; "@cleaner_bot"] None None None.

(** The bot is removed from supergroup 100. *)
Definition update_bot_leaves : Update :=
  mkUpdate (Some (mkMessage 42 100 SUPERGROUP 1060)) []
    (Some "@cleaner_bot") None None.

(** ** Statements of the specification that the code does not meet

    Each is the specification's sentence at given inputs; the sections
    below refute it at a concrete run and prove what holds instead. *)

(** "For every two messages with equal [message_id] but different
    [chat_id], upserting both results in two distinct records in the
    ledger." *)
Definition distinct_chats_distinct_records (T : Table) (m1 m2 : MessageEntity)
  : Prop :=
  message_id m1 = message_id m2 → chat_id m1 ≠ chat_id m2 →
  m1 ∈ MessagesRepo.add_message m2 (MessagesRepo.add_message m1 T) ∧
  m2 ∈ MessagesRepo.add_message m2 (MessagesRepo.add_message m1 T).

(** "When [old_id] is absent from the ActiveChatSet the remap is skipped
    entirely, leaving the ActiveChatSet and the ledger unchanged." *)
Definition remap_skipped_when_absent (b : Bot) (old_chat_id new_chat_id : Z)
  : Prop :=
  old_chat_id ∉ active_groups b →
  _handle_chat_id_migration old_chat_id new_chat_id b = b.

(** "A per-chat cleanup in which the 3rd of 5 eligible messages fails with
    Forbidden aborts remaining attempts: messages 4 and 5 are left
    untouched in the ledger, messages 1-2 (if successfully deleted) are
    removed, and the chat is abandoned."  The deletion calls of a cleanup
    started at tick [t] are made at [t + 1], [t + 2], [t + 3]. *)
Definition abort_leaves_rest_untouched (env : Env) (c : Z) (w : World) (b : Bot)
    (m1 m2 m3 m4 m5 : MessageEntity) : Prop :=
  MessagesRepo.get_chat_messages (messages b) c
    (utcnow env (tick w) - timedelta_days 2) = [m1; m2; m3; m4; m5] →
  delete_message env (tick w + 1)%nat c (message_id m1) ≠ Raise Unauthorized →
  delete_message env (tick w + 2)%nat c (message_id m2) ≠ Raise Unauthorized →
  delete_message env (tick w + 3)%nat c (message_id m3) = Raise Unauthorized →
  let w' := (_chat_cleanup env c w b).1.1 in
  let b' := (_chat_cleanup env c w b).1.2 in
  deletion_attempts (new_events w w')
  = [(c, message_id m1); (c, message_id m2); (c, message_id m3)] ∧
  m4 ∈ messages b' ∧ m5 ∈ messages b' ∧
  (delete_message env (tick w + 1)%nat c (message_id m1) = Return true →
   m1 ∉ messages b') ∧
  (delete_message env (tick w + 2)%nat c (message_id m2) = Return true →
   m2 ∉ messages b') ∧
  c ∉ active_groups b'.


(** * Properties *)

Example report_message_0_0 :
  report_message 0 0 = "Removed 0 recent messages. Failed to remove: 0.".
Proof. reflexivity. Qed.

Example report_message_12_3 :
  report_message 12 3 = "Removed 12 recent messages. Failed to remove: 3.".
Proof. reflexivity. Qed.

(** ** Facts about the repository *)

Section repo_facts.
Implicit Types (T : Table) (m r : MessageEntity).

Lemma pk_unique_filter (P : MessageEntity → Prop) `{∀ r, Decision (P r)} T :
  pk_unique T → pk_unique (filter P T).
Proof.
  unfold pk_unique. induction T as [|r T IH]; simpl; [done|].
  rewrite NoDup_cons. intros [Hr HT]. rewrite filter_cons.
  destruct (decide (P r)); [|by auto].
  rewrite fmap_cons, NoDup_cons. split; [|by auto].
  intros Hin. apply Hr. apply list_elem_of_fmap in Hin as (r' & -> & Hr').
  apply list_elem_of_fmap. exists r'. split; [done|].
  by apply list_elem_of_filter in Hr' as [_ ?].
Qed.

Lemma add_message_ids_present m T :
  message_id <$> ((λ r, if decide (message_id r = message_id m) then m else r) <$> T)
  = message_id <$> T.
Proof.
  rewrite <-list_fmap_compose. apply list_fmap_ext. intros _ r _. simpl.
  by destruct (decide _).
Qed.

Lemma pk_unique_add_message m T :
  pk_unique T → pk_unique (MessagesRepo.add_message m T).
Proof.
  unfold pk_unique, MessagesRepo.add_message. intros HT.
  destruct (decide _) as [Hin|Hin].
  - by rewrite add_message_ids_present.
  - rewrite fmap_app. apply NoDup_app. split_and!; [done| |apply NoDup_singleton].
    intros x Hx ->%list_elem_of_singleton. done.
Qed.

Lemma elem_of_add_message m r T :
  r ∈ MessagesRepo.add_message m T ↔
  r = m ∨ (r ∈ T ∧ message_id r ≠ message_id m).
Proof.
  unfold MessagesRepo.add_message. destruct (decide _) as [Hin|Hin].
  - rewrite list_elem_of_fmap. split.
    + intros (r' & -> & Hr'). destruct (decide _); [by left|by right].
    + intros [->|[Hr Hne]].
      * apply list_elem_of_fmap in Hin as (r' & Hid & Hr').
        exists r'. split; [|done]. by rewrite decide_True.
      * exists r. split; [|done]. by rewrite decide_False.
  - rewrite elem_of_app, list_elem_of_singleton. split.
    + intros [Hr| ->]; [|by left]. right. split; [done|].
      intros Heq. apply Hin. rewrite <-Heq. apply list_elem_of_fmap; eauto.
    + intros [->|[Hr _]]; auto.
Qed.

Lemma filter_none (P : MessageEntity → Prop) `{∀ r, Decision (P r)} T :
  (∀ r, r ∈ T → ¬ P r) → filter P T = [].
Proof.
  induction T as [|r T IH]; intros HP; [done|].
  rewrite filter_cons_False; [|apply HP; left].
  apply IH. intros r' Hr'. apply HP. by right.
Qed.

Lemma filter_all (P : MessageEntity → Prop) `{∀ r, Decision (P r)} T :
  (∀ r, r ∈ T → P r) → filter P T = T.
Proof.
  induction T as [|r T IH]; intros HP; [done|].
  rewrite filter_cons_True; [|apply HP; left].
  f_equal. apply IH. intros r' Hr'. apply HP. by right.
Qed.

Lemma filter_iff_in (P Q : MessageEntity → Prop)
    `{∀ r, Decision (P r)} `{∀ r, Decision (Q r)} T :
  (∀ r, r ∈ T → P r ↔ Q r) → filter P T = filter Q T.
Proof.
  induction T as [|r T IH]; intros HPQ; [done|].
  rewrite !filter_cons.
  rewrite IH by (intros r' Hr'; apply HPQ; by right).
  apply decide_ext, HPQ. by left.
Qed.

Lemma rows_with_id_absent m T :
  message_id m ∉ message_id <$> T →
  filter (λ r, message_id r = message_id m) T = [].
Proof.
  intros Hin. apply filter_none. intros r Hr Heq. apply Hin.
  rewrite <-Heq. apply list_elem_of_fmap; eauto.
Qed.

Lemma add_message_rows_with_id m T :
  pk_unique T →
  filter (λ r, message_id r = message_id m) (MessagesRepo.add_message m T) = [m].
Proof.
  unfold MessagesRepo.add_message. intros HT. destruct (decide _) as [Hin|Hin].
  - induction T as [|r T IH]; [by apply elem_of_nil in Hin|].
    unfold pk_unique in HT. rewrite fmap_cons, NoDup_cons in HT.
    destruct HT as [Hr HT]. rewrite fmap_cons.
    destruct (decide (message_id r = message_id m)) as [Heq|Hne].
    + rewrite filter_cons_True by done. f_equal.
      apply filter_none. intros r' (r0 & -> & Hr0)%list_elem_of_fmap.
      assert (message_id r0 ≠ message_id m) as Hne.
      { intros Heq'. apply Hr. rewrite Heq, <-Heq'. apply list_elem_of_fmap; eauto. }
      by rewrite decide_False.
    + rewrite filter_cons_False by done. apply IH; [done|].
      rewrite fmap_cons in Hin. apply elem_of_cons in Hin as [Heq|Hin]; [congruence|done].
  - rewrite filter_app, rows_with_id_absent by done.
    by rewrite filter_cons_True, filter_nil.
Qed.

Lemma pk_unique_inj T r d :
  pk_unique T → r ∈ T → d ∈ T → message_id r = message_id d → r = d.
Proof.
  unfold pk_unique. induction T as [|x T IH]; [by intros _ ?%elem_of_nil|].
  rewrite fmap_cons, NoDup_cons. intros [Hx HT] Hr Hd Hid.
  apply elem_of_cons in Hr as [->|Hr]; apply elem_of_cons in Hd as [->|Hd].
  - done.
  - destruct Hx. rewrite Hid. apply list_elem_of_fmap; eauto.
  - destruct Hx. rewrite <-Hid. apply list_elem_of_fmap; eauto.
  - by apply IH.
Qed.

Global Instance newest_first_total : Total newest_first.
Proof. intros a b'. unfold newest_first. lia. Qed.

Global Instance newest_first_trans : Transitive newest_first.
Proof. intros a b' c'. unfold newest_first. lia. Qed.

Lemma get_chat_messages_perm T chat min_timestamp :
  MessagesRepo.get_chat_messages T chat min_timestamp
  ≡ₚ filter (λ r, chat_id r = chat ∧ min_timestamp < timestamp r) T.
Proof. apply merge_sort_Permutation. Qed.

Lemma elem_of_get_chat_messages r T chat min_timestamp :
  r ∈ MessagesRepo.get_chat_messages T chat min_timestamp ↔
  r ∈ T ∧ chat_id r = chat ∧ min_timestamp < timestamp r.
Proof.
  rewrite get_chat_messages_perm, list_elem_of_filter. tauto.
Qed.

Lemma get_chat_messages_sorted T chat min_timestamp :
  StronglySorted newest_first
    (MessagesRepo.get_chat_messages T chat min_timestamp).
Proof. apply StronglySorted_merge_sort; apply _. Qed.

Lemma add_message_existing_in_place m T :
  message_id m ∈ message_id <$> T →
  length (MessagesRepo.add_message m T) = length T ∧
  ∀ i r, T !! i = Some r →
    MessagesRepo.add_message m T !! i
    = Some (if decide (message_id r = message_id m) then m else r).
Proof.
  intros Hin. unfold MessagesRepo.add_message. rewrite decide_True by done.
  split; [by rewrite length_fmap|].
  intros i r Hi. by rewrite list_lookup_fmap, Hi.
Qed.

End repo_facts.

(** ** The ledger key *)

(** C1, as the specification states it, fails.  Message 7 of chat 100 and
    message 7 of chat 200 are upserted into an empty ledger: the primary
    key is [message_id] alone, so the second upsert overwrites the first
    and the ledger does not hold both records. *)
Lemma distinct_chats_share_one_record :
  ¬ distinct_chats_distinct_records []
      (mkMessageEntity 7 100 0) (mkMessageEntity 7 200 0).
Proof.
  intros H. destruct H as [H1 _]; [done|done|].
  apply elem_of_add_message in H1 as [H1|[_ H1]]; [discriminate|].
  by apply H1.
Qed.

(** C1, amended: the ledger keys tracked messages by [message_id] alone.
    In a ledger that satisfies the primary-key constraint, upserting two
    messages with equal [message_id] leaves exactly one record with that
    [message_id], the second message, without growing the table, so that
    when the two chats differ the first message is no longer in the
    ledger; and re-adding an existing [(chat_id, message_id)] pair
    overwrites that record in place: exactly one record carries the pair
    afterwards and the table keeps its length. *)
Theorem add_message_keyed_by_message_id (T : Table) (m1 m2 : MessageEntity) :
  pk_unique T →
  (message_id m1 = message_id m2 →
     filter (λ r, message_id r = message_id m2)
       (MessagesRepo.add_message m2 (MessagesRepo.add_message m1 T)) = [m2] ∧
     length (MessagesRepo.add_message m2 (MessagesRepo.add_message m1 T))
     = length (MessagesRepo.add_message m1 T) ∧
     (chat_id m1 ≠ chat_id m2 →
        m1 ∉ MessagesRepo.add_message m2 (MessagesRepo.add_message m1 T))) ∧
  ((∃ r, r ∈ T ∧ chat_id r = chat_id m1 ∧ message_id r = message_id m1) →
     filter (λ r, chat_id r = chat_id m1 ∧ message_id r = message_id m1)
       (MessagesRepo.add_message m1 T) = [m1] ∧
     length (MessagesRepo.add_message m1 T) = length T).
Proof.
  intros HT. split.
  - intros Hid. split_and!.
    + apply add_message_rows_with_id. by apply pk_unique_add_message.
    + apply add_message_existing_in_place. rewrite <-Hid.
      apply list_elem_of_fmap. exists m1. split; [done|].
      apply elem_of_add_message. by left.
    + intros Hchat [Heq|[_ Hne]]%elem_of_add_message; [|done].
      by rewrite Heq in Hchat.
  - intros (r & Hr & Hchat & Hid). split.
    + rewrite <-(list_filter_filter (λ r, chat_id r = chat_id m1)
                  (λ r, message_id r = message_id m1)).
      rewrite add_message_rows_with_id by done.
      by rewrite filter_cons_True.
    + apply add_message_existing_in_place. rewrite <-Hid.
      apply list_elem_of_fmap; eauto.
Qed.

(** The amended C1 at a ledger holding messages 7 and 8 of chat 100, where
    message 7 is re-added with a new timestamp. *)
Lemma add_message_keyed_by_message_id_witness :
  filter (λ r, chat_id r = 100 ∧ message_id r = 7)
    (MessagesRepo.add_message (mkMessageEntity 7 100 5)
       [mkMessageEntity 7 100 0; mkMessageEntity 8 100 1])
  = [mkMessageEntity 7 100 5].
Proof.
  apply (add_message_keyed_by_message_id
           [mkMessageEntity 7 100 0; mkMessageEntity 8 100 1]
           (mkMessageEntity 7 100 5) (mkMessageEntity 7 200 9)).
  - apply (bool_decide_unpack _); vm_compute; exact I.
  - exists (mkMessageEntity 7 100 0). split_and!; [|done..]. by left.
Defined.

(** C8: for every [(chat_id, message_id)] and every two timestamps, an
    upsert followed by a second upsert with the same pair yields exactly
    one record for that pair, and it carries the timestamp of the second
    upsert. *)
Theorem upsert_twice_keeps_latest_timestamp
    (T : Table) (chat mid t1 t2 : Z) :
  pk_unique T →
  filter (λ r, chat_id r = chat ∧ message_id r = mid)
    (MessagesRepo.add_message (mkMessageEntity mid chat t2)
       (MessagesRepo.add_message (mkMessageEntity mid chat t1) T))
  = [mkMessageEntity mid chat t2].
Proof.
  intros HT.
  rewrite <-(list_filter_filter (λ r, chat_id r = chat)
                (λ r, message_id r = mid)).
  rewrite (add_message_rows_with_id (mkMessageEntity mid chat t2))
    by by apply pk_unique_add_message.
  by rewrite filter_cons_True.
Qed.

(** C8 at a ledger that already tracks message 7 of chat 100. *)
Lemma upsert_twice_keeps_latest_timestamp_witness :
  filter (λ r, chat_id r = 100 ∧ message_id r = 7)
    (MessagesRepo.add_message (mkMessageEntity 7 100 60)
       (MessagesRepo.add_message (mkMessageEntity 7 100 30)
          [mkMessageEntity 7 100 0; mkMessageEntity 8 100 1]))
  = [mkMessageEntity 7 100 60].
Proof.
  apply (upsert_twice_keeps_latest_timestamp
           [mkMessageEntity 7 100 0; mkMessageEntity 8 100 1] 100 7 30 60).
  apply (bool_decide_unpack _); vm_compute; exact I.
Defined.

(** ** Chat lifecycle *)

Lemma fmap_fixed_rows (f : MessageEntity → MessageEntity) (T : Table) :
  f <$> T = T ↔ ∀ r, r ∈ T → f r = r.
Proof.
  induction T as [|r T IH]; simpl.
  - split; [|done]. intros _ r Hr. by apply elem_of_nil in Hr.
  - split.
    + intros Heq r' Hr'. simplify_eq.
      apply elem_of_cons in Hr' as [->|Hr']; [done|].
      by apply IH.
    + intros Hf. f_equal; [apply Hf; left|].
      apply IH. intros r' Hr'. apply Hf. by right.
Qed.

Lemma update_chat_id_idemp old_chat_id new_chat_id (T : Table) :
  MessagesRepo.update_chat_id old_chat_id new_chat_id
    (MessagesRepo.update_chat_id old_chat_id new_chat_id T)
  = MessagesRepo.update_chat_id old_chat_id new_chat_id T.
Proof.
  unfold MessagesRepo.update_chat_id. apply fmap_fixed_rows.
  intros r' (r & -> & _)%list_elem_of_fmap.
  destruct (decide (chat_id r = old_chat_id)) as [Heq|Hne]; simpl.
  - destruct (decide (new_chat_id = old_chat_id)); [by subst|done].
  - by rewrite decide_False.
Qed.

(** C4, as the specification states it, fails.  No chat is active and the
    ledger holds one message of chat 5; the remap of 5 to 6 is not
    skipped: the message is re-keyed (and chat 6 becomes active). *)
Lemma remap_not_skipped_when_absent :
  ¬ remap_skipped_when_absent (mkBot ∅ ∅ [mkMessageEntity 1 5 0]) 5 6.
Proof.
  intros H. specialize (H (not_elem_of_empty 5)).
  apply (f_equal messages) in H. discriminate H.
Qed.

(** C4, amended: the chat-migration remap is idempotent, applying it twice
    is the same as applying it once.  There is no presence check: when
    [old_id] is absent from the active set the remap still inserts
    [new_id] and still re-keys the records of [old_id]; it leaves the state
    unchanged exactly when [new_id] is already active and no record
    belongs to [old_id] (as after a first application). *)
Theorem chat_id_migration_idempotent (b : Bot) (old_chat_id new_chat_id : Z) :
  _handle_chat_id_migration old_chat_id new_chat_id
    (_handle_chat_id_migration old_chat_id new_chat_id b)
  = _handle_chat_id_migration old_chat_id new_chat_id b ∧
  (old_chat_id ∉ active_groups b →
     active_groups (_handle_chat_id_migration old_chat_id new_chat_id b)
     = active_groups b ∪ {[new_chat_id]} ∧
     messages (_handle_chat_id_migration old_chat_id new_chat_id b)
     = MessagesRepo.update_chat_id old_chat_id new_chat_id (messages b) ∧
     (_handle_chat_id_migration old_chat_id new_chat_id b = b ↔
      new_chat_id ∈ active_groups b ∧
      ∀ r, r ∈ messages b → chat_id r ≠ old_chat_id)).
Proof.
  split.
  - unfold _handle_chat_id_migration. simpl. f_equal.
    + set_solver.
    + apply update_chat_id_idemp.
  - intros Hold. split_and!; [set_solver|done|].
    destruct b as [A G T]. unfold _handle_chat_id_migration. simpl in *. split.
    + intros Heq. pose proof (f_equal active_groups Heq) as HA.
      pose proof (f_equal messages Heq) as HT. simpl in HA, HT.
      assert (new_chat_id ∈ A) as Hnew by set_solver.
      split; [done|]. intros r Hr Hchat.
      apply fmap_fixed_rows with (r := r) in HT; [|done].
      rewrite decide_True in HT by done.
      apply (f_equal chat_id) in HT. simpl in HT. congruence.
    + intros [Hnew HT]. f_equal; [set_solver|].
      apply fmap_fixed_rows. intros r Hr. rewrite decide_False; [done|].
      by apply HT.
Qed.

(** C6: abandoning a chat removes all of that chat's records from the
    ledger and the chat from the active set (and its invite-name entry),
    leaving other chats as they were; abandoning again changes nothing,
    and abandoning a chat that is not active, has no record and no
    invite-name entry changes nothing. *)
Theorem abandon_chat_removes_and_is_idempotent (b : Bot) (chat : Z) :
  (chat ∉ active_groups (_abandon_chat chat b)) ∧
  (∀ r, r ∈ messages (_abandon_chat chat b) → chat_id r ≠ chat) ∧
  group_joiner_chats (_abandon_chat chat b) !! chat = None ∧
  (∀ c, c ≠ chat →
     (c ∈ active_groups (_abandon_chat chat b) ↔ c ∈ active_groups b) ∧
     group_joiner_chats (_abandon_chat chat b) !! c = group_joiner_chats b !! c) ∧
  (∀ r, chat_id r ≠ chat →
     (r ∈ messages (_abandon_chat chat b) ↔ r ∈ messages b)) ∧
  _abandon_chat chat (_abandon_chat chat b) = _abandon_chat chat b ∧
  ((chat ∉ active_groups b) →
   (∀ r, r ∈ messages b → chat_id r ≠ chat) →
   group_joiner_chats b !! chat = None →
   _abandon_chat chat b = b).
Proof.
  unfold _abandon_chat, MessagesRepo.delete_chat_messages. simpl.
  split_and!.
  - set_solver.
  - by intros r [? _]%list_elem_of_filter.
  - destruct (decide _) as [?|Hn]; [apply lookup_delete_eq|].
    by apply eq_None_not_Some.
  - intros c Hc. split; [set_solver|].
    destruct (decide _); [by apply lookup_delete_ne|done].
  - intros r Hr. rewrite list_elem_of_filter. tauto.
  - f_equal.
    + set_solver.
    + destruct (decide (is_Some (group_joiner_chats b !! chat))) as [?|Hn].
      * rewrite decide_False; [done|]. rewrite lookup_delete_eq. by intros [? ?].
      * by rewrite decide_False.
    + rewrite list_filter_filter. apply list_filter_iff. tauto.
  - intros Hactive Hrows Hjoin. destruct b as [A G T]. simpl in *. f_equal.
    + set_solver.
    + rewrite decide_False; [done|]. rewrite Hjoin. by intros [? ?].
    + by apply filter_all.
Qed.

Section cleanup_facts.
Context (env : Env).
Implicit Types (w : World) (b : Bot) (c : Z) (r e : MessageEntity).

Lemma chat_cleanup_loop_spec c recent w b del w' b' del' flag :
  _chat_cleanup_loop env c recent w b del = (w', b', del', flag) →
  ∃ (k : nat) (dnew : list MessageEntity),
    (k ≤ length recent)%nat ∧
    trace w' = trace w ++ ((λ e, CallDelete c (message_id e)) <$> take k recent) ∧
    tick w' = (tick w + k)%nat ∧
    del' = del ++ dnew ∧
    dnew ⊆ take k recent ∧
    (length dnew ≤ k)%nat ∧
    active_groups b' = active_groups b ∧
    group_joiner_chats b' = group_joiner_chats b ∧
    messages b' = filter (λ r, message_id r ∉ message_id <$> dnew) (messages b) ∧
    (if flag then (0 < k)%nat else k = length recent) ∧
    (∀ (j : nat) e, (j < k)%nat → recent !! j = Some e →
       delete_message env (tick w + j)%nat c (message_id e) = Raise Unauthorized
       ↔ flag = true ∧ S j = k).
Proof.
  revert w b del. induction recent as [|e rest IH]; intros w b del Hloop.
  { simpl in Hloop. simplify_eq. exists 0%nat, []. simpl.
    rewrite !app_nil_r, Nat.add_0_r. split_and!; try done; try lia.
    symmetry. apply filter_all. intros r _. apply not_elem_of_nil. }
  simpl in Hloop.
  destruct (delete_message env (tick w) c (message_id e)) as [deleted|exn] eqn:Hdel.
  2: destruct (decide (exn = Unauthorized)) as [->|Hne].
  2: { simplify_eq. exists 1%nat, []. simpl.
       rewrite take_0, app_nil_r. split_and!; try done; try lia.
       - apply list_subseteq_nil.
       - symmetry. apply filter_all. intros r _. apply not_elem_of_nil.
       - intros j e' Hj He'. assert (j = 0%nat) as -> by lia.
         simpl in He'. simplify_eq. by rewrite Nat.add_0_r. }
  1: destruct deleted.
  2,3: assert (_chat_cleanup_loop env c rest
                 (emit (CallDelete c (message_id e)) (step w)) b del
               = (w', b', del', flag)) as Hloop' by (try destruct exn; done);
       clear Hloop; rename Hloop' into Hloop.
  all: apply IH in Hloop
         as (k & dnew & Hk & Htr & Htk & Hd & Hsub & Hlen & Ha & Hg & Hm & Hf & Hu).
  1: exists (S k), (e :: dnew).
  2,3: exists (S k), dnew.
  all: simpl in Htr, Htk, Ha, Hg, Hm, Hu; simpl.
  all: split; [lia|]; split; [by rewrite Htr, <-app_assoc|]; split; [lia|].
  all: split; [by rewrite Hd, <-?app_assoc|].
  all: split; [first [by apply list_subseteq_skip|by apply list_subseteq_cons]|].
  all: split; [simpl; lia|].
  all: split; [done|]; split; [done|]; split.
  all: try done.
  1: { rewrite Hm. unfold MessagesRepo.remove_message.
       rewrite list_filter_filter. apply list_filter_iff. intros r.
       rewrite not_elem_of_cons. tauto. }
  all: split; [destruct flag; [lia|by f_equal]|].
  all: intros [|j] e' Hj He'; simpl in He'.
  all: try (replace (tick w + S j)%nat with (S (tick w + j)) by lia;
            rewrite Hu by (done || lia); split; intros [? ?]; split; (done || lia)).
  all: simplify_eq; rewrite Nat.add_0_r, Hdel.
  all: split; [intros ?; simplify_eq|].
  all: intros [-> ?]; lia.
Qed.

(** What a per-chat cleanup comes to, for every environment: [k] deletion
    attempts over the newest [k] recent messages, of which the rows
    [dnew] were deleted; then either the chat is abandoned (the [k]-th
    attempt raised [Unauthorized]) or all attempts were made and the
    report is sent. *)
Lemma chat_cleanup_cases c w b :
  let recent :=
    MessagesRepo.get_chat_messages (messages b) c
      (utcnow env (tick w) - timedelta_days 2) in
  ∃ (k : nat) (dnew : list MessageEntity) (unauthorized : bool),
    (k ≤ length recent)%nat ∧ dnew ⊆ take k recent ∧ (length dnew ≤ k)%nat ∧
    (∀ (j : nat) e, (j < k)%nat → recent !! j = Some e →
       delete_message env (S (tick w) + j)%nat c (message_id e) = Raise Unauthorized
       ↔ unauthorized = true ∧ S j = k) ∧
    let w2 :=
      {| tick := (S (tick w) + k)%nat;
         trace := trace w ++ LogInitiated c ::
                    ((λ e, CallDelete c (message_id e)) <$> take k recent) |} in
    let b2 :=
      with_messages (filter (λ r, message_id r ∉ message_id <$> dnew)) b in
    if unauthorized
    then (0 < k)%nat ∧
         _chat_cleanup env c w b = (w2, _abandon_chat c b2, Return ())
    else k = length recent ∧
         let text :=
           report_message (length dnew)
             (Z.of_nat (length recent) - Z.of_nat (length dnew)) in
         let w3 := emit (CallSend c text true) (step w2) in
         _chat_cleanup env c w b =
           match send_message env (tick w2) c text true with
           | Return m =>
               (w3, (_retain_message (Some m) b2).1,
                (_retain_message (Some m) b2).2)
           | Raise Unauthorized => (w3, _abandon_chat c b2, Raise AttributeError)
           | Raise e => (w3, b2, Raise e)
           end.
Proof.
  intros recent.
  destruct (_chat_cleanup_loop env c recent (step (emit (LogInitiated c) w)) b [])
    as [[[w2 b2] del] flag] eqn:Hloop.
  pose proof Hloop as Hspec.
  apply chat_cleanup_loop_spec in Hspec
    as (k & dnew & Hk & Htr & Htk & Hd & Hsub & Hlen & Ha & Hg & Hm & Hf & Hu).
  simpl in Htr, Htk, Hd, Hu. subst del.
  exists k, dnew, flag. do 4 (split; [done|]). intros w2' b2'.
  assert (w2 = w2') as ->.
  { destruct w2. simpl in Htr, Htk. subst. unfold w2'. f_equal.
    by rewrite <-app_assoc. }
  assert (b2 = b2') as ->.
  { destruct b2, b. simpl in Ha, Hg, Hm. by subst. }
  unfold _chat_cleanup, _deletion_limit. simpl. fold recent. rewrite Hloop.
  destruct flag; [done|].
  split; [done|]. cbv zeta. unfold _send_status_message. simpl.
  destruct (send_message env _ c _ true) as [m|exn]; simpl.
  - by destruct (decide _).
  - by destruct exn.
Qed.

Lemma initiated_chats_app (l1 l2 : list Event) :
  initiated_chats (l1 ++ l2) = initiated_chats l1 ++ initiated_chats l2.
Proof. apply omap_app. Qed.

Lemma initiated_chats_initiated c (l : list Event) :
  initiated_chats (LogInitiated c :: l) = c :: initiated_chats l.
Proof. done. Qed.

Lemma initiated_chats_failed c (exn : Exn) (l : list Event) :
  initiated_chats (LogCleanupFailed c exn :: l) = initiated_chats l.
Proof. done. Qed.

Lemma deletion_attempts_app (l1 l2 : list Event) :
  deletion_attempts (l1 ++ l2) = deletion_attempts l1 ++ deletion_attempts l2.
Proof. apply omap_app. Qed.

Lemma initiated_chats_deletions c (l : list MessageEntity) :
  initiated_chats ((λ e, CallDelete c (message_id e)) <$> l) = [].
Proof. by induction l. Qed.

Lemma deletion_attempts_deletions c (l : list MessageEntity) :
  deletion_attempts ((λ e, CallDelete c (message_id e)) <$> l)
  = (λ e, (c, message_id e)) <$> l.
Proof. induction l as [|e l IH]; [done|]. simpl. by f_equal. Qed.

(** The events of one per-chat cleanup: the log line, [k] deletion calls
    over the newest recent messages, then at most one send. *)
Lemma chat_cleanup_events c w b :
  let recent :=
    MessagesRepo.get_chat_messages (messages b) c
      (utcnow env (tick w) - timedelta_days 2) in
  ∃ (k : nat) (tail : list Event),
    trace (_chat_cleanup env c w b).1.1
    = trace w ++ LogInitiated c ::
        ((λ e, CallDelete c (message_id e)) <$> take k recent) ++ tail ∧
    (tail = [] ∨ ∃ text, tail = [CallSend c text true]) ∧
    (k ≤ length recent)%nat ∧
    (k = length recent ∨
     (0 < k)%nat ∧ tail = [] ∧ ∃ e, recent !! (k - 1)%nat = Some e ∧
       delete_message env (tick w + k)%nat c (message_id e) = Raise Unauthorized) ∧
    (∀ (j : nat) e, (S j < k)%nat → recent !! j = Some e →
       delete_message env (S (tick w) + j)%nat c (message_id e)
       ≠ Raise Unauthorized).
Proof.
  intros recent.
  destruct (chat_cleanup_cases c w b)
    as (k & dnew & flag & Hk & Hsub & Hlen & Hu & Hcase).
  fold recent in Hk, Hsub, Hu, Hcase. cbv zeta in Hcase.
  assert (∀ (j : nat) e, (S j < k)%nat → recent !! j = Some e →
            delete_message env (S (tick w) + j)%nat c (message_id e)
            ≠ Raise Unauthorized) as Hbefore.
  { intros j e Hj He Hdel. apply Hu in Hdel as [_ ?]; [lia|lia|done]. }
  destruct flag.
  - destruct Hcase as [Hk0 ->]. exists k, []. simpl. rewrite app_nil_r.
    split_and!; [done|by left|done| |done].
    right. split_and!; [done..|].
    destruct (lookup_lt_is_Some_2 recent (k - 1)) as [e He]; [lia|].
    exists e. split; [done|].
    replace (tick w + k)%nat with (S (tick w) + (k - 1))%nat by lia.
    apply Hu; [lia|done|]. split; [done|lia].
  - destruct Hcase as [Hkl ->].
    eexists k, [CallSend c _ true].
    split_and!; [|right; eauto|done|by left|done].
    destruct (send_message env _ c _ true) as [m|exn]; [|destruct exn]; simpl.
    all: by rewrite <-app_assoc.
Qed.

(** Abandoning a chat after some of its recent rows were deleted leaves
    the same state as abandoning it at once. *)
Lemma abandon_after_deletions c lim (dnew : list MessageEntity) b :
  pk_unique (messages b) →
  dnew ⊆ MessagesRepo.get_chat_messages (messages b) c lim →
  _abandon_chat c
    (with_messages (filter (λ r, message_id r ∉ message_id <$> dnew)) b)
  = _abandon_chat c b.
Proof.
  intros Hpk Hsub. unfold _abandon_chat, MessagesRepo.delete_chat_messages.
  simpl. f_equal. rewrite list_filter_filter. apply filter_iff_in.
  intros r Hr. split; [tauto|]. intros Hc. split; [done|].
  intros (d & Hid & Hd)%list_elem_of_fmap.
  apply Hsub, elem_of_get_chat_messages in Hd as (Hd & Hcd & _).
  assert (r = d) as -> by by apply (pk_unique_inj (messages b)). done.
Qed.


Lemma total_cleanup_loop_app l1 l2 w b :
  _total_cleanup_loop env (l1 ++ l2) w b
  = _total_cleanup_loop env l2
      (_total_cleanup_loop env l1 w b).1 (_total_cleanup_loop env l1 w b).2.
Proof.
  revert w b. induction l1 as [|c l1 IH]; intros w b; [done|].
  simpl. destruct (_chat_cleanup env c w b) as [[w1 b1] [?|e]]; apply IH.
Qed.

(** The loop of the sweep is the chat-by-chat composition of the per-chat
    cleanups, for every order of the chats. *)
Lemma total_cleanup_loop_fold chats w b :
  _total_cleanup_loop env chats w b
  = fold_left (after_chat_cleanup env) chats (w, b).
Proof.
  revert w b. induction chats as [|c chats IH]; intros w b; [done|].
  cbn [_total_cleanup_loop fold_left]. unfold after_chat_cleanup at 2.
  cbn [fst snd].
  destruct (_chat_cleanup env c w b) as [[w1 b1] [?|e]]; apply IH.
Qed.

Lemma total_cleanup_loop_events chats w b :
  ∃ evs, trace (_total_cleanup_loop env chats w b).1 = trace w ++ evs ∧
         initiated_chats evs = chats.
Proof.
  revert w b. induction chats as [|c chats IH]; intros w b.
  { exists []. by rewrite app_nil_r. }
  destruct (chat_cleanup_events c w b) as (k & tail & Htr & Htail & _).
  simpl. destruct (_chat_cleanup env c w b) as [[w1 b1] res]. simpl in Htr.
  assert (initiated_chats tail = []) as Htl.
  { by destruct Htail as [->|[text ->]]. }
  remember ((λ e, CallDelete c (message_id e)) <$>
              take k (MessagesRepo.get_chat_messages (messages b) c
                        (utcnow env (tick w) - timedelta_days 2)))
    as dels eqn:Hdels.
  assert (initiated_chats dels = []) as Hdl.
  { subst dels. apply initiated_chats_deletions. }
  clear Hdels Htail.
  destruct res as [?|exn].
  - destruct (IH w1 b1) as (evs & -> & Hevs). rewrite Htr.
    exists (LogInitiated c :: (dels ++ tail) ++ evs). split.
    + rewrite <-app_assoc. reflexivity.
    + rewrite initiated_chats_initiated, !initiated_chats_app.
      rewrite Hdl, Htl, Hevs. reflexivity.
  - destruct (IH (emit (LogCleanupFailed c exn) w1) b1) as (evs & -> & Hevs).
    simpl. rewrite Htr.
    exists (LogInitiated c :: (dels ++ tail) ++ LogCleanupFailed c exn :: evs).
    split.
    + rewrite <-(app_assoc _ _ evs), <-(app_assoc (trace w)). reflexivity.
    + rewrite initiated_chats_initiated, !initiated_chats_app.
      rewrite initiated_chats_failed.
      rewrite Hdl, Htl, Hevs. reflexivity.
Qed.


End cleanup_facts.

(** ** Per-chat cleanup *)

(** C2, amended: in a per-chat cleanup over five eligible messages whose
    third deletion attempt raises [Unauthorized], the attempts for
    messages 4 and 5 are not made and no report is sent, the cleanup
    returns normally, and the chat is abandoned: it leaves the active set
    and every record of the chat, the five messages included, is removed
    from the ledger, while the records of other chats stay. *)
Theorem unauthorized_third_deletion_abandons_chat
    (env : Env) (c : Z) (w : World) (b : Bot) (m1 m2 m3 m4 m5 : MessageEntity) :
  pk_unique (messages b) →
  MessagesRepo.get_chat_messages (messages b) c
    (utcnow env (tick w) - timedelta_days 2) = [m1; m2; m3; m4; m5] →
  delete_message env (tick w + 1)%nat c (message_id m1) ≠ Raise Unauthorized →
  delete_message env (tick w + 2)%nat c (message_id m2) ≠ Raise Unauthorized →
  delete_message env (tick w + 3)%nat c (message_id m3) = Raise Unauthorized →
  _chat_cleanup env c w b
  = ({| tick := (tick w + 4)%nat;
        trace := trace w ++
          [LogInitiated c; CallDelete c (message_id m1);
           CallDelete c (message_id m2); CallDelete c (message_id m3)] |},
     _abandon_chat c b, Return ()) ∧
  (∀ r, r ∈ messages (_abandon_chat c b) ↔ r ∈ messages b ∧ chat_id r ≠ c) ∧
  (∀ m, m ∈ [m1; m2; m3; m4; m5] → m ∉ messages (_abandon_chat c b)) ∧
  active_groups (_abandon_chat c b) = active_groups b ∖ {[c]}.
Proof.
  intros Hpk Hrecent H1 H2 H3.
  destruct (chat_cleanup_cases env c w b)
    as (k & dnew & flag & Hk & Hsub & Hlen & Hu & Hcase).
  cbv zeta in Hcase. rewrite Hrecent in Hk, Hsub, Hu, Hcase.
  replace (tick w + 1)%nat with (S (tick w) + 0)%nat in H1 by lia.
  replace (tick w + 2)%nat with (S (tick w) + 1)%nat in H2 by lia.
  replace (tick w + 3)%nat with (S (tick w) + 2)%nat in H3 by lia.
  assert (flag = true ∧ k = 3%nat) as [-> ->].
  { destruct flag.
    - destruct Hcase as [Hk0 _]. split; [done|].
      destruct k as [|[|[|[|k']]]]; [lia| | |done|].
      + exfalso. apply H1. apply (Hu 0%nat m1); [lia|done|done].
      + exfalso. apply H2. apply (Hu 1%nat m2); [lia|done|done].
      + assert (true = true ∧ 3%nat = S (S (S (S k')))) as [_ ?]; [|lia].
        apply (Hu 2%nat m3); [lia|done|done].
    - destruct Hcase as [-> _].
      assert (false = true ∧ 3%nat = 5%nat) as [? _]; [|done].
      apply (Hu 2%nat m3); [simpl; lia|done|done]. }
  destruct Hcase as [_ ->]. split_and!.
  - rewrite (abandon_after_deletions c
               (utcnow env (tick w) - timedelta_days 2)); [|done|].
    + simpl. do 2 f_equal. f_equal. lia.
    + rewrite Hrecent. intros x Hx. apply Hsub in Hx. simpl in Hx.
      set_solver.
  - intros r. simpl. unfold MessagesRepo.delete_chat_messages.
    rewrite list_elem_of_filter. tauto.
  - intros m Hm. rewrite <-Hrecent in Hm.
    apply elem_of_get_chat_messages in Hm as (_ & Hc & _).
    simpl. unfold MessagesRepo.delete_chat_messages.
    rewrite list_elem_of_filter. tauto.
  - done.
Qed.

(** C2, as the specification states it, fails.  Chat 100 has the recent
    messages 1 to 5 and deleting message 3 raises [Unauthorized]: after
    the cleanup message 4 is not in the ledger, abandonment has removed
    it. *)
Lemma abort_removes_the_rest_too :
  ¬ abort_leaves_rest_untouched env_third_unauthorized 100 world0 bot5
      (mkMessageEntity 1 100 1050) (mkMessageEntity 2 100 1040)
      (mkMessageEntity 3 100 1030) (mkMessageEntity 4 100 1020)
      (mkMessageEntity 5 100 1010).
Proof.
  intros H. destruct H as (_ & H4 & _).
  - by vm_compute.
  - by vm_compute.
  - by vm_compute.
  - by vm_compute.
  - apply (bool_decide_pack _) in H4. vm_compute in H4. exact H4.
Qed.

(** The amended C2 at that run. *)
Lemma unauthorized_third_deletion_abandons_chat_witness :
  _chat_cleanup env_third_unauthorized 100 world0 bot5
  = ({| tick := (tick world0 + 4)%nat;
        trace := trace world0 ++
          [LogInitiated 100; CallDelete 100 1; CallDelete 100 2;
           CallDelete 100 3] |},
     _abandon_chat 100 bot5, Return ()).
Proof.
  apply (unauthorized_third_deletion_abandons_chat
           env_third_unauthorized 100 world0 bot5
           (mkMessageEntity 1 100 1050) (mkMessageEntity 2 100 1040)
           (mkMessageEntity 3 100 1030) (mkMessageEntity 4 100 1020)
           (mkMessageEntity 5 100 1010)).
  - apply (bool_decide_unpack _); vm_compute; exact I.
  - by vm_compute.
  - by vm_compute.
  - by vm_compute.
  - by vm_compute.
Defined.

(** C3, what the code does: when no deletion is refused and sending the
    status report raises [Unauthorized], the chat is abandoned as in the
    mid-loop path and no report is stored, but the cleanup then calls
    [_retain_message] on [None] and raises [AttributeError] to its caller
    instead of returning. *)
Theorem unauthorized_report_abandons_then_raises
    (env : Env) (c : Z) (w : World) (b : Bot) :
  pk_unique (messages b) →
  (∀ t m, delete_message env t c m ≠ Raise Unauthorized) →
  (∀ t text, send_message env t c text true = Raise Unauthorized) →
  let recent :=
    MessagesRepo.get_chat_messages (messages b) c
      (utcnow env (tick w) - timedelta_days 2) in
  ∃ n : nat, (n ≤ length recent)%nat ∧
    _chat_cleanup env c w b
    = ({| tick := (tick w + length recent + 2)%nat;
          trace := trace w ++ LogInitiated c ::
            ((λ e, CallDelete c (message_id e)) <$> recent) ++
            [CallSend c
               (report_message n (Z.of_nat (length recent) - Z.of_nat n))
               true] |},
       _abandon_chat c b, Raise AttributeError).
Proof.
  intros Hpk Hdel Hsend recent.
  destruct (chat_cleanup_cases env c w b)
    as (k & dnew & flag & Hk & Hsub & Hlen & Hu & Hcase).
  cbv zeta in Hcase. fold recent in Hk, Hsub, Hu, Hcase.
  destruct flag.
  { destruct Hcase as [Hk0 _].
    destruct (lookup_lt_is_Some_2 recent (k - 1)) as [e He]; [lia|].
    destruct (Hdel (S (tick w) + (k - 1))%nat (message_id e)).
    apply Hu; [lia|done|]. split; [done|lia]. }
  destruct Hcase as [-> Hcase]. rewrite Hsend in Hcase.
  rewrite firstn_all in Hsub, Hcase.
  exists (length dnew). split; [done|]. rewrite Hcase.
  rewrite (abandon_after_deletions c
             (utcnow env (tick w) - timedelta_days 2)) by done.
  unfold emit, step. simpl. do 2 f_equal. f_equal; [lia|].
  rewrite <-app_assoc. reflexivity.
Qed.

(** C3 at chat 100 with two recent messages, where every send is
    refused. *)
Lemma unauthorized_report_abandons_then_raises_witness :
  ∃ n : nat, (n ≤ 2)%nat ∧
    _chat_cleanup env_send_unauthorized 100 world0 bot2
    = ({| tick := 4;
          trace := [LogInitiated 100; CallDelete 100 1; CallDelete 100 2;
                    CallSend 100
                      (report_message n (Z.of_nat 2 - Z.of_nat n)) true] |},
       _abandon_chat 100 bot2, Raise AttributeError).
Proof.
  apply (unauthorized_report_abandons_then_raises
           env_send_unauthorized 100 world0 bot2).
  - apply (bool_decide_unpack _); vm_compute; exact I.
  - intros t m. by vm_compute.
  - intros t text. by vm_compute.
Defined.

(** C9: when a chat has no eligible message, the per-chat cleanup makes
    exactly one transport call, sending
    "Removed 0 recent messages. Failed to remove: 0." to that chat, and
    when the transport returns the sent message of that group chat, the
    cleanup returns normally and the message is upserted into the ledger
    as a tracked message of the chat. *)
Theorem cleanup_without_recent_messages_reports_zero
    (env : Env) (c : Z) (w : World) (b : Bot) :
  MessagesRepo.get_chat_messages (messages b) c
    (utcnow env (tick w) - timedelta_days 2) = [] →
  new_events w (_chat_cleanup env c w b).1.1
  = [LogInitiated c;
     CallSend c "Removed 0 recent messages. Failed to remove: 0." true] ∧
  ∀ m,
    send_message env (tick w + 1)%nat c
      "Removed 0 recent messages. Failed to remove: 0." true = Return m →
    msg_chat_type m = GROUP ∨ msg_chat_type m = SUPERGROUP →
    msg_chat_id m = c →
    (_chat_cleanup env c w b).2 = Return () ∧
    messages (_chat_cleanup env c w b).1.2
    = MessagesRepo.add_message
        (mkMessageEntity (msg_message_id m) c (msg_date m)) (messages b) ∧
    mkMessageEntity (msg_message_id m) c (msg_date m)
    ∈ messages (_chat_cleanup env c w b).1.2 ∧
    active_groups (_chat_cleanup env c w b).1.2 = active_groups b.
Proof.
  intros Hrecent.
  unfold _chat_cleanup, _deletion_limit. simpl. rewrite Hrecent. simpl.
  change (report_message 0 (Z.of_nat 0 - Z.of_nat 0))
    with "Removed 0 recent messages. Failed to remove: 0.".
  unfold _send_status_message. simpl.
  replace (tick w + 1)%nat with (S (tick w)) by lia.
  split.
  - destruct (send_message env _ c _ true) as [m|exn].
    + destruct (_retain_message (Some m) b). simpl.
      unfold new_events. simpl. rewrite <-app_assoc. by rewrite drop_app_length.
    + destruct exn; simpl; unfold new_events; simpl;
        rewrite <-app_assoc; by rewrite drop_app_length.
  - intros m -> Htype <-. simpl. rewrite decide_True by done. simpl.
    split_and!; [done..| |done]. apply elem_of_add_message. by left.
Qed.

(** C9 at chat 200, whose only message is older than the cutoff. *)
Lemma cleanup_without_recent_messages_reports_zero_witness :
  new_events world0 (_chat_cleanup env_ok 200 world0 bot_idle).1.1
  = [LogInitiated 200;
     CallSend 200 "Removed 0 recent messages. Failed to remove: 0." true] ∧
  mkMessageEntity 77 200 now0
  ∈ messages (_chat_cleanup env_ok 200 world0 bot_idle).1.2.
Proof.
  destruct (cleanup_without_recent_messages_reports_zero
              env_ok 200 world0 bot_idle) as [Hevents Hledger].
  - by vm_compute.
  - split; [exact Hevents|].
    apply (Hledger (mkMessage 77 200 SUPERGROUP now0));
      [reflexivity|by right|reflexivity].
Defined.


(** C7: [get_chat_messages] returns exactly the rows of the chat whose
    timestamp is strictly greater than the cutoff (a permutation of the
    filtered table), newest first; and the deletion calls of a per-chat
    cleanup are, in order, those of the first [k] rows of that list, where
    [k] is the whole list unless the [k]-th call raised [Unauthorized],
    no earlier call having done so. *)
Theorem get_chat_messages_newest_first_and_deleted_in_order
    (env : Env) (T : Table) (chat cutoff : Z) (w : World) (b : Bot) :
  MessagesRepo.get_chat_messages T chat cutoff
  ≡ₚ filter (λ r, chat_id r = chat ∧ cutoff < timestamp r) T ∧
  StronglySorted (λ a a', timestamp a' ≤ timestamp a)
    (MessagesRepo.get_chat_messages T chat cutoff) ∧
  let recent :=
    MessagesRepo.get_chat_messages (messages b) chat
      (utcnow env (tick w) - timedelta_days 2) in
  ∃ k : nat, (k ≤ length recent)%nat ∧
    deletion_attempts (new_events w (_chat_cleanup env chat w b).1.1)
    = (λ e, (chat, message_id e)) <$> take k recent ∧
    (k = length recent ∨
     (0 < k)%nat ∧ ∃ e, recent !! (k - 1)%nat = Some e ∧
       delete_message env (tick w + k)%nat chat (message_id e)
       = Raise Unauthorized) ∧
    (∀ (j : nat) e, (S j < k)%nat → recent !! j = Some e →
       delete_message env (tick w + S j)%nat chat (message_id e)
       ≠ Raise Unauthorized).
Proof.
  split_and!.
  - apply get_chat_messages_perm.
  - apply get_chat_messages_sorted.
  - intros recent.
    destruct (chat_cleanup_events env chat w b)
      as (k & tail & Htr & Htail & Hk & Hlast & Hbefore).
    fold recent in Htr, Hk, Hlast, Hbefore.
    exists k. split_and!.
    + done.
    + unfold new_events. rewrite Htr, drop_app_length.
      change (deletion_attempts (LogInitiated chat :: ?l))
        with (deletion_attempts l).
      rewrite deletion_attempts_app, deletion_attempts_deletions.
      destruct Htail as [->|[text ->]]; by rewrite app_nil_r.
    + destruct Hlast as [?|(? & _ & ?)]; [by left|by right].
    + intros j e Hj He.
      replace (tick w + S j)%nat with (S (tick w) + j)%nat by lia.
      by apply Hbefore.
Qed.

(** ** Global cleanup *)

(** C5: whatever the transport answers, a global cleanup is the per-chat
    cleanup of every chat of the snapshot of the active set, one after the
    other, each started from the state its predecessors left, followed by
    the removal of the rows older than the cutoff.  Every chat of the
    snapshot is cleaned once, all the calls of its cleanup are in the
    trace of the sweep, and when the cleanup of one chat raises an
    exception the failure is logged and the remaining chats are cleaned
    from the state that cleanup had reached.  The loop is this
    composition for every order of the chats. *)
Theorem total_cleanup_visits_every_chat_and_prunes
    (env : Env) (w : World) (b : Bot) :
  let snapshot := elements (active_groups b) in
  let reached := λ chats, fold_left (after_chat_cleanup env) chats (w, b) in
  let w' := (_perform_total_cleanup env w b).1 in
  let b' := (_perform_total_cleanup env w b).2 in
  let cutoff := utcnow env (tick (reached snapshot).1) - timedelta_days 2 in
  (∀ chats, _total_cleanup_loop env chats w b = reached chats) ∧
  _perform_total_cleanup env w b
  = (step (reached snapshot).1,
     with_messages (MessagesRepo.remove_outdated_messages cutoff)
       (reached snapshot).2) ∧
  NoDup snapshot ∧ (∀ c, c ∈ snapshot ↔ c ∈ active_groups b) ∧
  initiated_chats (new_events w w') = snapshot ∧
  (∀ r, r ∈ messages b' ↔
        r ∈ messages (reached snapshot).2 ∧ ¬ timestamp r < cutoff) ∧
  (∀ l1 c l2,
     snapshot = l1 ++ c :: l2 →
     let run := _chat_cleanup env c (reached l1).1 (reached l1).2 in
     (∃ rest, trace w' = trace run.1.1 ++ rest) ∧
     (∀ x, run.2 = Return x →
           reached snapshot
           = fold_left (after_chat_cleanup env) l2 (run.1.1, run.1.2)) ∧
     (∀ e, run.2 = Raise e →
           reached snapshot
           = fold_left (after_chat_cleanup env) l2
               (emit (LogCleanupFailed c e) run.1.1, run.1.2))).
Proof.
  intros snapshot reached w' b' cutoff.
  assert (∀ chats, _total_cleanup_loop env chats w b = reached chats) as Hfold.
  { intros chats. apply total_cleanup_loop_fold. }
  assert (_perform_total_cleanup env w b
          = (step (reached snapshot).1,
             with_messages (MessagesRepo.remove_outdated_messages cutoff)
               (reached snapshot).2)) as Hsweep.
  { unfold cutoff, _perform_total_cleanup, _deletion_limit.
    fold snapshot. rewrite Hfold. by destruct (reached snapshot). }
  assert (trace w' = trace (reached snapshot).1) as Htr'.
  { unfold w'. by rewrite Hsweep. }
  assert (messages b'
          = MessagesRepo.remove_outdated_messages cutoff
              (messages (reached snapshot).2)) as Hb'.
  { unfold b'. by rewrite Hsweep. }
  split_and!.
  - done.
  - done.
  - apply NoDup_elements.
  - intros c. apply elem_of_elements.
  - destruct (total_cleanup_loop_events env snapshot w b) as (evs & Htr & Hevs).
    rewrite Hfold in Htr. unfold new_events. rewrite Htr', Htr.
    by rewrite drop_app_length.
  - intros r. rewrite Hb'. unfold MessagesRepo.remove_outdated_messages.
    rewrite list_elem_of_filter. tauto.
  - intros l1 c l2 Hsplit run.
    assert (reached snapshot
            = fold_left (after_chat_cleanup env) l2
                (after_chat_cleanup env (reached l1) c)) as Hreach.
    { unfold reached. rewrite Hsplit, fold_left_app. done. }
    assert (∃ rest, trace (reached snapshot).1
                    = trace (after_chat_cleanup env (reached l1) c).1 ++ rest)
      as [rest Hrest].
    { rewrite Hreach.
      destruct (after_chat_cleanup env (reached l1) c) as [w2 b2].
      rewrite <-total_cleanup_loop_fold.
      destruct (total_cleanup_loop_events env l2 w2 b2) as (evs & Htr & _).
      by exists evs. }
    assert (after_chat_cleanup env (reached l1) c
            = match run with
              | (w2, b2, Return _) => (w2, b2)
              | (w2, b2, Raise e) => (emit (LogCleanupFailed c e) w2, b2)
              end) as Hst by done.
    rewrite Htr', Hrest, Hreach, Hst. clearbody run. clear Hst Hrest Hreach.
    destruct run as [[w2 b2] [x|e]]; simpl.
    + split_and!; [by exists rest| |done].
      intros ? _. done.
    + split_and!; [|done|].
      * exists (LogCleanupFailed c e :: rest). by rewrite <-app_assoc.
      * intros ? [= <-]. done.
Qed.

(** C5 at the scenario of the specification: chats 1, 2 and 3, where
    sending the report of chat 2 times out.  The snapshot lists chat 3,
    chat 2, chat 1; the cleanup of chat 2 raises, and the sweep ends in
    the state the cleanup of chat 1 reaches from there, pruned. *)
Lemma total_cleanup_visits_every_chat_and_prunes_witness :
  let run2 :=
    _chat_cleanup env_chat2_fails 2
      (after_chat_cleanup env_chat2_fails (world0, bot3) 3).1
      (after_chat_cleanup env_chat2_fails (world0, bot3) 3).2 in
  elements (active_groups bot3) = [3; 2; 1] ∧
  run2.2 = Raise TimedOut ∧
  fold_left (after_chat_cleanup env_chat2_fails) [3; 2; 1] (world0, bot3)
  = after_chat_cleanup env_chat2_fails
      (emit (LogCleanupFailed 2 TimedOut) run2.1.1, run2.1.2) 1.
Proof.
  intros run2.
  assert (elements (active_groups bot3) = [3; 2; 1]) as Hel by by vm_compute.
  assert (run2.2 = Raise TimedOut) as Hraise by by vm_compute.
  split_and!; [done..|].
  destruct (total_cleanup_visits_every_chat_and_prunes env_chat2_fails
              world0 bot3) as (_ & _ & _ & _ & _ & _ & Hsplit).
  destruct (Hsplit [3] 2 [1] Hel) as (_ & _ & Hgo).
  rewrite Hel in Hgo. exact (Hgo TimedOut Hraise).
Defined.

(** The scenario of the specification: chats 1, 2 and 3, where the cleanup
    of chat 2 raises. *)
Example total_cleanup_chat2_fails :
  let w' := (_perform_total_cleanup env_chat2_fails world0 bot3).1 in
  let b' := (_perform_total_cleanup env_chat2_fails world0 bot3).2 in
  trace w'
  = [LogInitiated 3; CallDelete 3 13;
     CallSend 3 "Removed 1 recent messages. Failed to remove: 0." true;
     LogInitiated 2; CallDelete 2 12;
     CallSend 2 "Removed 1 recent messages. Failed to remove: 0." true;
     LogCleanupFailed 2 TimedOut;
     LogInitiated 1; CallDelete 1 11;
     CallSend 1 "Removed 1 recent messages. Failed to remove: 0." true] ∧
  messages b' = [mkMessageEntity 73 3 now0; mkMessageEntity 71 1 now0].
Proof. by vm_compute. Qed.


(** The first run: the record is not selected, and is pruned. *)
Example total_cleanup_clock_advances :
  let b' := (_perform_total_cleanup env_clock_advances world0 bot_one).2 in
  (_deletion_limit env_clock_advances world0).2 = 1000 ∧
  MessagesRepo.get_chat_messages (messages bot_one) 1 1000 = [] ∧
  active_groups b' = {[1]} ∧
  messages b' = [mkMessageEntity 77 1 now0].
Proof. by vm_compute. Qed.

(** The second run: row 7 now belongs to chat 2. *)
Example total_cleanup_report_collides :
  let b' := (_perform_total_cleanup env_report_collides world0 bot_at_cutoff).2 in
  active_groups b' = {[1; 2]} ∧
  messages b' = [mkMessageEntity 7 2 now0; mkMessageEntity 50 1 now0].
Proof. by vm_compute. Qed.



(** * Further properties of the repository *)

Section repo_more.
Implicit Types (T : Table) (m r : MessageEntity).

Lemma update_chat_id_ids old_chat_id new_chat_id T :
  message_id <$> MessagesRepo.update_chat_id old_chat_id new_chat_id T
  = message_id <$> T.
Proof.
  unfold MessagesRepo.update_chat_id. rewrite <-list_fmap_compose.
  apply list_fmap_ext. intros _ r _. simpl. by destruct (decide _).
Qed.

(** X1: every mutating operation of the repository keeps the primary-key
    constraint of the table. *)
Theorem repo_operations_keep_primary_key T m chat old_chat_id new_chat_id date :
  pk_unique T →
  pk_unique (MessagesRepo.add_message m T) ∧
  pk_unique (MessagesRepo.remove_message m T) ∧
  pk_unique (MessagesRepo.delete_chat_messages chat T) ∧
  pk_unique (MessagesRepo.update_chat_id old_chat_id new_chat_id T) ∧
  pk_unique (MessagesRepo.remove_outdated_messages date T).
Proof.
  intros HT. split_and!.
  - by apply pk_unique_add_message.
  - by apply pk_unique_filter.
  - by apply pk_unique_filter.
  - unfold pk_unique. by rewrite update_chat_id_ids.
  - by apply pk_unique_filter.
Qed.

(** X1 at the ledger of chat 100, where message 9 is upserted again. *)
Lemma repo_operations_keep_primary_key_witness :
  pk_unique (MessagesRepo.add_message (mkMessageEntity 9 200 5) ledger5).
Proof.
  apply (repo_operations_keep_primary_key ledger5 (mkMessageEntity 9 200 5)
           100 100 200 0).
  apply (bool_decide_unpack _); vm_compute; exact I.
Defined.

(** X2: [remove_message] on a row of the table (an entity that a query
    returned, as [_chat_cleanup] passes it) removes that row and no
    other: the rows left are the other rows, in their order; the table
    has one row less; no row with its [message_id] remains; and every
    selection loses exactly that row. *)
Theorem remove_message_removes_that_row_only T m :
  pk_unique T → m ∈ T →
  (∀ r, r ∈ MessagesRepo.remove_message m T ↔ r ∈ T ∧ r ≠ m) ∧
  MessagesRepo.remove_message m T = filter (λ r, r ≠ m) T ∧
  length T = S (length (MessagesRepo.remove_message m T)) ∧
  (message_id m ∉ message_id <$> MessagesRepo.remove_message m T) ∧
  (∀ chat lim r,
     r ∈ MessagesRepo.get_chat_messages (MessagesRepo.remove_message m T)
           chat lim
     ↔ r ∈ MessagesRepo.get_chat_messages T chat lim ∧ r ≠ m).
Proof.
  intros Hpk Hm.
  assert (MessagesRepo.remove_message m T = filter (λ r, r ≠ m) T) as Heq.
  { unfold MessagesRepo.remove_message. apply filter_iff_in.
    intros r Hr. split.
    - intros Hid ->. done.
    - intros Hne Hid. apply Hne. by apply (pk_unique_inj T). }
  assert (∀ r, r ∈ MessagesRepo.remove_message m T ↔ r ∈ T ∧ r ≠ m) as Hin.
  { intros r. rewrite Heq, list_elem_of_filter. tauto. }
  split_and!.
  - done.
  - done.
  - rewrite Heq. clear Heq Hin. unfold pk_unique in Hpk.
    induction T as [|x T IH]; [by apply elem_of_nil in Hm|].
    rewrite fmap_cons in Hpk. apply NoDup_cons in Hpk as [Hx Hpk].
    rewrite filter_cons. destruct (decide (x ≠ m)) as [Hne|Heq].
    + simpl. f_equal. apply IH; [done|].
      apply elem_of_cons in Hm as [->|Hm]; done.
    + assert (x = m) as -> by (by destruct (decide (x = m)); [|destruct Heq]).
      simpl. f_equal. f_equal. symmetry. apply filter_all.
      intros r Hr ->. apply Hx. by apply list_elem_of_fmap_2.
  - intros (r & Hid & Hr)%list_elem_of_fmap.
    unfold MessagesRepo.remove_message in Hr.
    apply list_elem_of_filter in Hr as [Hne _]. congruence.
  - intros chat lim r. rewrite !elem_of_get_chat_messages, Hin. tauto.
Qed.

Lemma filter_fmap_stable (P : MessageEntity → Prop) `{∀ r, Decision (P r)}
    (f : MessageEntity → MessageEntity) T :
  (∀ r, r ∈ T → P (f r) ↔ P r) → (∀ r, r ∈ T → P r → f r = r) →
  filter P (f <$> T) = filter P T.
Proof.
  induction T as [|r T IH]; intros Hiff Hfix; [done|].
  rewrite fmap_cons, !filter_cons.
  rewrite IH;
    [|intros r' Hr'; apply Hiff; by right|intros r' Hr'; apply Hfix; by right].
  destruct (decide (P r)) as [HP|HP].
  - rewrite decide_True by (apply Hiff; [by left|done]).
    f_equal. apply Hfix; [by left|done].
  - rewrite decide_False; [done|]. intros HP'. apply HP, Hiff; [by left|done].
Qed.

(** X3: after [update_chat_id old new] with [old ≠ new] no row belongs to
    [old] any more (its query is empty and it is not listed); the rows
    [new] answers are exactly the former rows of [old] and [new], re-keyed;
    the queries of other chats are unchanged, and no row is added or
    lost. *)
Theorem update_chat_id_moves_chat T old_chat_id new_chat_id lim :
  old_chat_id ≠ new_chat_id →
  MessagesRepo.get_chat_messages
    (MessagesRepo.update_chat_id old_chat_id new_chat_id T) old_chat_id lim = [] ∧
  (old_chat_id ∉ MessagesRepo.get_all_chat_ids
                   (MessagesRepo.update_chat_id old_chat_id new_chat_id T)) ∧
  (∀ r, r ∈ MessagesRepo.get_chat_messages
              (MessagesRepo.update_chat_id old_chat_id new_chat_id T)
              new_chat_id lim ↔
        ∃ r0, r0 ∈ T ∧ (chat_id r0 = old_chat_id ∨ chat_id r0 = new_chat_id) ∧
              lim < timestamp r0 ∧
              r = mkMessageEntity (message_id r0) new_chat_id (timestamp r0)) ∧
  (∀ c, c ≠ old_chat_id → c ≠ new_chat_id →
        MessagesRepo.get_chat_messages
          (MessagesRepo.update_chat_id old_chat_id new_chat_id T) c lim
        = MessagesRepo.get_chat_messages T c lim) ∧
  length (MessagesRepo.update_chat_id old_chat_id new_chat_id T) = length T.
Proof.
  intros Hne.
  assert (∀ r, r ∈ MessagesRepo.update_chat_id old_chat_id new_chat_id T →
               chat_id r ≠ old_chat_id) as Hgone.
  { intros r' (r & -> & _)%list_elem_of_fmap.
    destruct (decide (chat_id r = old_chat_id)); simpl; congruence. }
  split_and!.
  - unfold MessagesRepo.get_chat_messages. rewrite filter_none; [done|].
    intros r Hr [Hc _]. by apply (Hgone r).
  - unfold MessagesRepo.get_all_chat_ids. rewrite elem_of_remove_dups.
    intros (r & Hc & Hr)%list_elem_of_fmap. by apply (Hgone r).
  - intros r. rewrite elem_of_get_chat_messages. split.
    + intros ((r0 & -> & Hr0)%list_elem_of_fmap & Hc & Hlt).
      exists r0. destruct (decide (chat_id r0 = old_chat_id)); simpl in *.
      * split_and!; auto.
      * split_and!; auto. destruct r0; simpl in *; by subst.
    + intros (r0 & Hr0 & Hc & Hlt & ->). simpl. split_and!; [|done..].
      apply list_elem_of_fmap. exists r0. split; [|done].
      destruct (decide (chat_id r0 = old_chat_id)); [done|].
      destruct Hc as [?|Hc]; [done|]. destruct r0; simpl in *; by subst.
  - intros c Hc1 Hc2. unfold MessagesRepo.get_chat_messages. f_equal.
    apply filter_fmap_stable.
    + intros r _. destruct (decide (chat_id r = old_chat_id)); simpl; [|done].
      split; intros [? ?]; congruence.
    + intros r _ [Hc _]. rewrite decide_False; [done|congruence].
  - apply length_fmap.
Qed.

(** X3 at the ledger of chat 100, re-keyed to chat 300. *)
Lemma update_chat_id_moves_chat_witness :
  MessagesRepo.get_chat_messages
    (MessagesRepo.update_chat_id 100 300 ledger5) 100 0 = [].
Proof.
  apply (update_chat_id_moves_chat ledger5 100 300 0). done.
Defined.

(** X4: [get_all_chat_ids] lists, without repetition, exactly the chats
    that have a row; after [delete_chat_messages c] it lists the same
    chats but [c]. *)
Theorem get_all_chat_ids_lists_tracked_chats T :
  NoDup (MessagesRepo.get_all_chat_ids T) ∧
  (∀ c, c ∈ MessagesRepo.get_all_chat_ids T ↔ ∃ r, r ∈ T ∧ chat_id r = c) ∧
  (∀ c c', c' ∈ MessagesRepo.get_all_chat_ids
                  (MessagesRepo.delete_chat_messages c T) ↔
           c' ∈ MessagesRepo.get_all_chat_ids T ∧ c' ≠ c).
Proof.
  assert (∀ T' c, c ∈ MessagesRepo.get_all_chat_ids T' ↔
                  ∃ r, r ∈ T' ∧ chat_id r = c) as Hin.
  { intros T' c. unfold MessagesRepo.get_all_chat_ids.
    rewrite elem_of_remove_dups, list_elem_of_fmap. naive_solver. }
  split_and!.
  - apply NoDup_remove_dups.
  - apply Hin.
  - intros c c'. rewrite !Hin. unfold MessagesRepo.delete_chat_messages.
    setoid_rewrite list_elem_of_filter. naive_solver.
Qed.

(** X5: pruning and selection split the table at the cutoff: a row older
    than the cutoff is removed by [remove_outdated_messages] and never
    returned by [get_chat_messages]; a row newer than the cutoff is kept
    and returned; and pruning with a cutoff does not change what
    [get_chat_messages] returns for that cutoff. *)
Theorem prune_and_selection_split_at_cutoff T chat cutoff :
  MessagesRepo.get_chat_messages
    (MessagesRepo.remove_outdated_messages cutoff T) chat cutoff
  = MessagesRepo.get_chat_messages T chat cutoff ∧
  (∀ r, r ∈ T → timestamp r < cutoff →
        (r ∉ MessagesRepo.remove_outdated_messages cutoff T) ∧
        (r ∉ MessagesRepo.get_chat_messages T (chat_id r) cutoff)) ∧
  (∀ r, r ∈ T → cutoff < timestamp r →
        r ∈ MessagesRepo.remove_outdated_messages cutoff T ∧
        r ∈ MessagesRepo.get_chat_messages T (chat_id r) cutoff).
Proof.
  split_and!.
  - unfold MessagesRepo.get_chat_messages,
      MessagesRepo.remove_outdated_messages.
    f_equal. rewrite list_filter_filter. apply list_filter_iff. intros r. lia.
  - intros r Hr Hlt. split.
    + unfold MessagesRepo.remove_outdated_messages.
      rewrite list_elem_of_filter. tauto.
    + rewrite elem_of_get_chat_messages. lia.
  - intros r Hr Hlt. split.
    + unfold MessagesRepo.remove_outdated_messages.
      rewrite list_elem_of_filter. split; [lia|done].
    + rewrite elem_of_get_chat_messages. done.
Qed.

(** X6: pruning twice is pruning once with the later of the two dates. *)
Theorem remove_outdated_messages_compose T date1 date2 :
  MessagesRepo.remove_outdated_messages date1
    (MessagesRepo.remove_outdated_messages date2 T)
  = MessagesRepo.remove_outdated_messages (Z.max date1 date2) T.
Proof.
  unfold MessagesRepo.remove_outdated_messages.
  rewrite list_filter_filter. apply list_filter_iff. intros r. lia.
Qed.

End repo_more.

(** * Further properties of the cleanup engine *)

Section cleanup_more.
Context (env : Env).
Implicit Types (w : World) (b : Bot) (c : Z) (r e : MessageEntity).

Lemma successful_deletions_cons c t e l :
  successful_deletions env c t (e :: l)
  = (if decide (delete_message env t c (message_id e) = Return true)
     then [e] else []) ++ successful_deletions env c (S t) l.
Proof.
  unfold successful_deletions. rewrite imap_cons. simpl.
  rewrite Nat.add_0_r.
  assert (imap ((λ j e0, if decide (delete_message env (t + j)%nat c
                                      (message_id e0) = Return true)
                         then Some e0 else None) ∘ S) l
          = imap (λ j e0, if decide (delete_message env (S t + j)%nat c
                                       (message_id e0) = Return true)
                          then Some e0 else None) l) as ->.
  { apply imap_ext. intros j e0 _. simpl.
    by replace (t + S j)%nat with (S (t + j)) by lia. }
  by destruct (decide _).
Qed.

Lemma elem_of_successful_deletions c t l e :
  e ∈ successful_deletions env c t l ↔
  ∃ j : nat, l !! j = Some e ∧
             delete_message env (t + j)%nat c (message_id e) = Return true.
Proof.
  unfold successful_deletions. rewrite list_elem_of_omap. split.
  - intros (o & Ho & Hid). simpl in Hid. subst o.
    apply elem_of_lookup_imap in Ho as (j & e' & Heq & Hj).
    destruct (decide _) as [Hd|]; [|done]. simplify_eq. eauto.
  - intros (j & Hj & Hd). exists (Some e). split; [|done].
    apply elem_of_lookup_imap. exists j, e. split; [|done].
    by rewrite decide_True.
Qed.

Lemma successful_deletions_sublist c t l :
  successful_deletions env c t l ⊆ l.
Proof.
  intros e (j & Hj & _)%elem_of_successful_deletions.
  by eapply list_elem_of_lookup_2.
Qed.

Lemma chat_cleanup_loop_deleted c recent w b del w' b' del' flag :
  _chat_cleanup_loop env c recent w b del = (w', b', del', flag) →
  ∃ k : nat, (k ≤ length recent)%nat ∧ tick w' = (tick w + k)%nat ∧
    del' = del ++ successful_deletions env c (tick w) (take k recent).
Proof.
  revert w b del. induction recent as [|e rest IH]; intros w b del Hloop.
  { simpl in Hloop. simplify_eq. exists 0%nat. simpl.
    by rewrite app_nil_r, Nat.add_0_r. }
  simpl in Hloop.
  destruct (delete_message env (tick w) c (message_id e)) as [deleted|exn] eqn:Hdel.
  2: destruct (decide (exn = Unauthorized)) as [->|Hne].
  2: { simplify_eq. exists 1%nat. simpl. rewrite take_0.
       rewrite successful_deletions_cons, Hdel. simpl.
       rewrite app_nil_r. split_and!; [lia|lia|done]. }
  1: destruct deleted.
  2,3: assert (_chat_cleanup_loop env c rest
                 (emit (CallDelete c (message_id e)) (step w)) b del
               = (w', b', del', flag)) as Hloop' by (try destruct exn; done);
       clear Hloop; rename Hloop' into Hloop.
  all: apply IH in Hloop as (k & Hk & Htk & Hd); simpl in Htk, Hd.
  all: exists (S k); simpl; rewrite successful_deletions_cons, Hdel.
  all: split; [lia|]; split; [lia|].
  - rewrite decide_True by done. by rewrite Hd, <-app_assoc.
  - rewrite decide_False by done. done.
  - rewrite decide_False by done. done.
Qed.

(** [chat_cleanup_cases] with the deleted rows named. *)
Lemma chat_cleanup_cases_exact c w b :
  let recent :=
    MessagesRepo.get_chat_messages (messages b) c
      (utcnow env (tick w) - timedelta_days 2) in
  ∃ (k : nat) (unauthorized : bool),
    (k ≤ length recent)%nat ∧
    (∀ (j : nat) e, (j < k)%nat → recent !! j = Some e →
       delete_message env (S (tick w) + j)%nat c (message_id e) = Raise Unauthorized
       ↔ unauthorized = true ∧ S j = k) ∧
    let dnew := successful_deletions env c (S (tick w)) (take k recent) in
    let w2 :=
      {| tick := (S (tick w) + k)%nat;
         trace := trace w ++ LogInitiated c ::
                    ((λ e, CallDelete c (message_id e)) <$> take k recent) |} in
    let b2 :=
      with_messages (filter (λ r, message_id r ∉ message_id <$> dnew)) b in
    if unauthorized
    then (0 < k)%nat ∧
         _chat_cleanup env c w b = (w2, _abandon_chat c b2, Return ())
    else k = length recent ∧
         let text :=
           report_message (length dnew)
             (Z.of_nat (length recent) - Z.of_nat (length dnew)) in
         let w3 := emit (CallSend c text true) (step w2) in
         _chat_cleanup env c w b =
           match send_message env (tick w2) c text true with
           | Return m =>
               (w3, (_retain_message (Some m) b2).1,
                (_retain_message (Some m) b2).2)
           | Raise Unauthorized => (w3, _abandon_chat c b2, Raise AttributeError)
           | Raise e => (w3, b2, Raise e)
           end.
Proof.
  intros recent.
  destruct (_chat_cleanup_loop env c recent (step (emit (LogInitiated c) w)) b [])
    as [[[w2 b2] del] flag] eqn:Hloop.
  pose proof Hloop as Hspec. pose proof Hloop as Hdeleted.
  apply chat_cleanup_loop_spec in Hspec
    as (k & dnew & Hk & Htr & Htk & Hd & Hsub & Hlen & Ha & Hg & Hm & Hf & Hu).
  apply chat_cleanup_loop_deleted in Hdeleted as (k' & _ & Htk' & Hd').
  simpl in Htr, Htk, Hd, Hu, Htk', Hd'.
  assert (k' = k) as -> by lia. subst del.
  exists k, flag. do 2 (split; [done|]). intros dnew' w2' b2'.
  assert (dnew = dnew') as -> by done.
  assert (w2 = w2') as ->.
  { destruct w2. simpl in Htr, Htk. subst. unfold w2'. f_equal.
    by rewrite <-app_assoc. }
  assert (b2 = b2') as ->.
  { destruct b2, b. simpl in Ha, Hg, Hm. by subst. }
  unfold _chat_cleanup, _deletion_limit. simpl. fold recent. rewrite Hloop.
  destruct flag; [done|].
  split; [done|]. cbv zeta. unfold _send_status_message. simpl.
  destruct (send_message env _ c _ true) as [m|exn]; simpl.
  - by destruct (decide _).
  - by destruct exn.
Qed.

Lemma get_chat_messages_NoDup T c lim :
  pk_unique T → NoDup (MessagesRepo.get_chat_messages T c lim).
Proof.
  intros HT. rewrite get_chat_messages_perm. apply NoDup_filter.
  by apply (NoDup_fmap_1 message_id).
Qed.

(** X7: the accounting of a per-chat cleanup in which no deletion raises
    [Unauthorized]: every recent message is attempted, in order, and one
    report is sent whose counts are the number of calls that returned
    [True] and the number of the others; in a ledger that satisfies the
    primary-key constraint a recent message is removed exactly when its
    call returned [True] (a [False] answer or any other exception keeps
    it), every other row stays, and the state then depends only on the
    answer to the send. *)
Theorem chat_cleanup_accounting c w b :
  pk_unique (messages b) →
  (∀ t m, delete_message env t c m ≠ Raise Unauthorized) →
  let recent :=
    MessagesRepo.get_chat_messages (messages b) c
      (utcnow env (tick w) - timedelta_days 2) in
  let deleted := successful_deletions env c (S (tick w)) recent in
  let b2 :=
    with_messages (filter (λ r, message_id r ∉ message_id <$> deleted)) b in
  let text :=
    report_message (length deleted)
      (Z.of_nat (length recent) - Z.of_nat (length deleted)) in
  new_events w (_chat_cleanup env c w b).1.1
  = LogInitiated c :: ((λ e, CallDelete c (message_id e)) <$> recent)
      ++ [CallSend c text true] ∧
  (∀ (j : nat) e, recent !! j = Some e →
     e ∈ deleted ↔
     delete_message env (tick w + 1 + j)%nat c (message_id e) = Return true) ∧
  (∀ e, e ∈ recent → e ∈ messages b2 ↔ e ∉ deleted) ∧
  (∀ r, r ∈ messages b → r ∉ recent → r ∈ messages b2) ∧
  (_chat_cleanup env c w b).1.2
  = match send_message env (tick w + 1 + length recent)%nat c text true with
    | Return m => (_retain_message (Some m) b2).1
    | Raise Unauthorized => _abandon_chat c b2
    | Raise _ => b2
    end.
Proof.
  intros Hpk Hdel recent deleted b2 text.
  destruct (chat_cleanup_cases_exact c w b) as (k & flag & Hk & Hu & Hcase).
  cbv zeta in Hcase. fold recent in Hk, Hu, Hcase.
  destruct flag.
  { destruct Hcase as [Hk0 _].
    destruct (lookup_lt_is_Some_2 recent (k - 1)) as [e He]; [lia|].
    destruct (Hdel (S (tick w) + (k - 1))%nat (message_id e)).
    apply Hu; [lia|done|]. split; [done|lia]. }
  destruct Hcase as [-> Hcase]. rewrite firstn_all in Hcase.
  fold deleted in Hcase. fold b2 in Hcase. fold text in Hcase.
  assert (NoDup recent) as Hnodup by by apply get_chat_messages_NoDup.
  assert (∀ e, e ∈ recent → message_id e ∈ message_id <$> deleted → e ∈ deleted)
    as Hid.
  { intros e He (d & Hde & Hd)%list_elem_of_fmap.
    assert (e = d) as ->; [|done].
    apply (pk_unique_inj (messages b)); [done| | |done].
    - by apply elem_of_get_chat_messages in He as [? _].
    - apply successful_deletions_sublist, elem_of_get_chat_messages in Hd.
      by destruct Hd. }
  split_and!.
  - rewrite Hcase.
    destruct (send_message env _ c text true) as [m|exn]; [|destruct exn].
    all: unfold new_events; simpl; rewrite <-app_assoc;
      by rewrite drop_app_length.
  - intros j e Hj. unfold deleted. rewrite elem_of_successful_deletions.
    replace (tick w + 1 + j)%nat with (S (tick w) + j)%nat by lia. split.
    + intros (j' & Hj' & Hd). by rewrite (NoDup_lookup recent j j' e).
    + intros Hd. eauto.
  - intros e He. simpl. rewrite list_elem_of_filter. split.
    + intros [Hne _] Hd. apply Hne. apply list_elem_of_fmap; eauto.
    + intros Hd. split; [by intros ?%Hid|].
      by apply elem_of_get_chat_messages in He as [? _].
  - intros r Hr Hnr. simpl. apply list_elem_of_filter. split; [|done].
    intros (d & Hde & Hd)%list_elem_of_fmap.
    apply successful_deletions_sublist in Hd. apply Hnr.
    assert (r = d) as ->; [|done].
    apply (pk_unique_inj (messages b)); [done..| |done].
    by apply elem_of_get_chat_messages in Hd as [? _].
  - rewrite Hcase. simpl.
    replace (tick w + 1 + length recent)%nat with (S (tick w + length recent))
      by lia.
    destruct (send_message env _ c text true) as [m|exn]; [done|by destruct exn].
Qed.

(** X8: wherever the first [Unauthorized] answer to a deletion falls, the
    per-chat cleanup stops right there: the later messages are not
    attempted, no report is sent, the cleanup returns normally and the
    bot is left as [_abandon_chat] leaves the state it started from,
    whichever earlier deletions had succeeded. *)
Theorem unauthorized_deletion_abandons_chat c w b (j : nat) e :
  pk_unique (messages b) →
  MessagesRepo.get_chat_messages (messages b) c
    (utcnow env (tick w) - timedelta_days 2) !! j = Some e →
  delete_message env (tick w + 1 + j)%nat c (message_id e) = Raise Unauthorized →
  (∀ (i : nat) e', (i < j)%nat →
     MessagesRepo.get_chat_messages (messages b) c
       (utcnow env (tick w) - timedelta_days 2) !! i = Some e' →
     delete_message env (tick w + 1 + i)%nat c (message_id e')
     ≠ Raise Unauthorized) →
  _chat_cleanup env c w b
  = ({| tick := (tick w + 2 + j)%nat;
        trace := trace w ++ LogInitiated c ::
          ((λ e, CallDelete c (message_id e)) <$>
             take (S j)
               (MessagesRepo.get_chat_messages (messages b) c
                  (utcnow env (tick w) - timedelta_days 2))) |},
     _abandon_chat c b, Return ()).
Proof.
  intros Hpk Hj Hun Hbefore.
  destruct (chat_cleanup_cases env c w b)
    as (k & dnew & flag & Hk & Hsub & Hlen & Hu & Hcase).
  cbv zeta in Hcase.
  set (recent := MessagesRepo.get_chat_messages (messages b) c
                   (utcnow env (tick w) - timedelta_days 2)) in *.
  pose proof (lookup_lt_Some _ _ _ Hj) as Hjlen.
  replace (tick w + 1 + j)%nat with (S (tick w) + j)%nat in Hun by lia.
  assert (flag = true ∧ k = S j) as [-> ->].
  { destruct (decide (j < k)%nat) as [Hjk|Hjk].
    - apply (Hu j e) in Hun as [? ?]; done.
    - destruct flag.
      + destruct Hcase as [Hk0 _].
        destruct (lookup_lt_is_Some_2 recent (k - 1)) as [e' He']; [lia|].
        destruct (Hbefore (k - 1)%nat e'); [lia|done|].
        replace (tick w + 1 + (k - 1))%nat with (S (tick w) + (k - 1))%nat
          by lia.
        apply Hu; [lia|done|]. split; [done|lia].
      + destruct Hcase as [-> _]. lia. }
  destruct Hcase as [_ ->].
  rewrite (abandon_after_deletions c
             (utcnow env (tick w) - timedelta_days 2)); [|done|].
  - do 2 f_equal. f_equal. lia.
  - intros x Hx. by apply Hsub, subseteq_take in Hx.
Qed.

Lemma next_tick_app t (l1 l2 : list Event) :
  next_tick t (l1 ++ l2) = next_tick (next_tick t l1) l2.
Proof.
  revert t. induction l1 as [|ev l1 IH]; intros t; [done|].
  destruct ev; simpl; apply IH.
Qed.

Lemma timed_calls_app t (l1 l2 : list Event) :
  timed_calls t (l1 ++ l2)
  = timed_calls t l1 ++ timed_calls (next_tick t l1) l2.
Proof.
  revert t. induction l1 as [|ev l1 IH]; intros t; [done|].
  destruct ev; simpl; by rewrite IH.
Qed.

Lemma next_tick_deletions t c (l : list MessageEntity) :
  next_tick t ((λ e, CallDelete c (message_id e)) <$> l) = (t + length l)%nat.
Proof.
  revert t. induction l as [|e l IH]; intros t; simpl; [lia|].
  rewrite IH. lia.
Qed.

Lemma timed_calls_deletions t c (l : list MessageEntity) (j : nat) e :
  l !! j = Some e →
  ((t + j)%nat, CallDelete c (message_id e))
  ∈ timed_calls t ((λ e, CallDelete c (message_id e)) <$> l).
Proof.
  revert t j. induction l as [|x l IH]; intros t [|j] Hj; simplify_eq/=.
  - rewrite Nat.add_0_r. by left.
  - right. replace (t + S j)%nat with (S t + j)%nat by lia. by apply IH.
Qed.

Lemma refused_call_app_l c (l1 l2 : list (nat * Event)) :
  refused_call env c l1 → refused_call env c (l1 ++ l2).
Proof.
  intros [t [(m & Hin & Hm)|(text & Hin & Ht)]]; exists t; [left|right].
  - exists m. split; [|done]. apply elem_of_app. by left.
  - exists text. split; [|done]. apply elem_of_app. by left.
Qed.

Lemma refused_call_app_r c (l1 l2 : list (nat * Event)) :
  refused_call env c l2 → refused_call env c (l1 ++ l2).
Proof.
  intros [t [(m & Hin & Hm)|(text & Hin & Ht)]]; exists t; [left|right].
  - exists m. split; [|done]. apply elem_of_app. by right.
  - exists text. split; [|done]. apply elem_of_app. by right.
Qed.

(** What one per-chat cleanup does to the chat bookkeeping: nothing, or the
    abandonment of its own chat after one of its calls was answered with
    [Unauthorized].  The tick counter advances as [next_tick] reads it off
    the events of the cleanup. *)
Lemma chat_cleanup_lifecycle c w b :
  ∃ evs,
    trace (_chat_cleanup env c w b).1.1 = trace w ++ evs ∧
    tick (_chat_cleanup env c w b).1.1 = next_tick (tick w) evs ∧
    let b' := (_chat_cleanup env c w b).1.2 in
    (active_groups b' = active_groups b ∧
     group_joiner_chats b' = group_joiner_chats b) ∨
    ((active_groups b' = active_groups b ∖ {[c]} ∧
      group_joiner_chats b' = group_joiner_chats (_abandon_chat c b)) ∧
     refused_call env c (timed_calls (tick w) evs)).
Proof.
  destruct (chat_cleanup_cases env c w b)
    as (k & dnew & flag & Hk & Hsub & Hlen & Hu & Hcase).
  cbv zeta in Hcase.
  set (recent := MessagesRepo.get_chat_messages (messages b) c
                   (utcnow env (tick w) - timedelta_days 2)) in *.
  set (dels := (λ e, CallDelete c (message_id e)) <$> take k recent) in *.
  assert (next_tick (S (tick w)) dels = (S (tick w) + k)%nat) as Hnext.
  { unfold dels. rewrite next_tick_deletions, length_take. lia. }
  destruct flag.
  - destruct Hcase as [Hk0 ->]. exists (LogInitiated c :: dels).
    split_and!; [done|by simpl|]. right. split; [done|].
    destruct (lookup_lt_is_Some_2 recent (k - 1)) as [e He]; [lia|].
    exists (S (tick w) + (k - 1))%nat. left. exists (message_id e). split.
    + change (timed_calls (tick w) (LogInitiated c :: dels))
        with (timed_calls (S (tick w)) dels).
      apply (timed_calls_deletions (S (tick w)) c (take k recent) (k - 1) e).
      rewrite lookup_take_lt by lia. done.
    + apply Hu; [lia|done|]. split; [done|lia].
  - destruct Hcase as [_ ->].
    remember (report_message (length dnew)
                (Z.of_nat (length recent) - Z.of_nat (length dnew))) as text.
    exists (LogInitiated c :: dels ++ [CallSend c text true]).
    assert (next_tick (tick w) (LogInitiated c :: dels ++ [CallSend c text true])
            = S (S (tick w) + k)) as Hnext'.
    { simpl. rewrite next_tick_app, Hnext. done. }
    rewrite Hnext'.
    destruct (send_message env _ c text true) as [m|exn] eqn:Hsend; simpl.
    + split_and!; [by rewrite <-app_assoc|done|].
      left. by destruct (decide _).
    + destruct (decide (exn = Unauthorized)) as [->|Hne].
      * simpl. split_and!; [by rewrite <-app_assoc|done|].
        right. split; [done|]. exists (S (tick w) + k)%nat. right.
        exists text. split; [|done].
        change (timed_calls (tick w)
                  (LogInitiated c :: dels ++ [CallSend c text true]))
          with (timed_calls (S (tick w)) (dels ++ [CallSend c text true])).
        rewrite timed_calls_app, Hnext. apply elem_of_app. right.
        by left.
      * destruct exn; try done.
        all: simpl; split_and!; [by rewrite <-app_assoc|done|by left].
Qed.

(** The same over the loop of a sweep. *)
Lemma total_cleanup_loop_lifecycle chats w b :
  ∃ evs,
    trace (_total_cleanup_loop env chats w b).1 = trace w ++ evs ∧
    tick (_total_cleanup_loop env chats w b).1 = next_tick (tick w) evs ∧
    ∀ c,
      let b' := (_total_cleanup_loop env chats w b).2 in
      ((c ∈ active_groups b' ↔ c ∈ active_groups b) ∧
       group_joiner_chats b' !! c = group_joiner_chats b !! c) ∨
      ((c ∈ active_groups b' → c ∈ active_groups b) ∧
       refused_call env c (timed_calls (tick w) evs)).
Proof.
  revert w b. induction chats as [|c0 chats IH]; intros w b.
  { exists []. simpl. rewrite app_nil_r. split_and!; [done..|]. by left. }
  destruct (chat_cleanup_lifecycle c0 w b) as (evs0 & Htr0 & Htk0 & Hstep).
  simpl. destruct (_chat_cleanup env c0 w b) as [[w1 b1] res].
  simpl in Htr0, Htk0, Hstep.
  assert (∀ w1' (mid : list Event),
            trace w1' = trace w1 ++ mid → tick w1' = tick w1 →
            next_tick (tick w1) mid = tick w1 →
            timed_calls (tick w1) mid = [] →
            ∃ evs,
              trace (_total_cleanup_loop env chats w1' b1).1 = trace w ++ evs ∧
              tick (_total_cleanup_loop env chats w1' b1).1
              = next_tick (tick w) evs ∧
              ∀ c,
                let b' := (_total_cleanup_loop env chats w1' b1).2 in
                ((c ∈ active_groups b' ↔ c ∈ active_groups b) ∧
                 group_joiner_chats b' !! c = group_joiner_chats b !! c) ∨
                ((c ∈ active_groups b' → c ∈ active_groups b) ∧
                 refused_call env c (timed_calls (tick w) evs))) as Hgoal.
  { intros w1' mid Hmid Htk1 Hnext Hcalls.
    destruct (IH w1' b1) as (evs & Htr & Htk & Hall).
    exists (evs0 ++ mid ++ evs).
    assert (timed_calls (tick w) (evs0 ++ mid ++ evs)
            = timed_calls (tick w) evs0 ++ timed_calls (tick w1') evs) as Hsplit.
    { rewrite !timed_calls_app, <-Htk0, Hcalls, Hnext, Htk1. done. }
    split_and!.
    - rewrite Htr, Hmid, Htr0, <-!app_assoc. done.
    - rewrite Htk, !next_tick_app, <-Htk0, Hnext, Htk1. done.
    - intros c. specialize (Hall c). simpl in Hall. cbv zeta.
      set (b2 := (_total_cleanup_loop env chats w1' b1).2) in *.
      rewrite Hsplit.
      destruct Hstep as [[Ha Hg]|[[Ha Hg] Hun]].
      + rewrite Ha, Hg in Hall.
        destruct Hall as [?|[? ?]]; [by left|].
        right. split; [done|]. by apply refused_call_app_r.
      + destruct (decide (c = c0)) as [->|Hne].
        * right. split; [|by apply refused_call_app_l].
          destruct Hall as [[Hall _]|[Hall _]]; set_solver.
        * assert (group_joiner_chats b1 !! c = group_joiner_chats b !! c)
            as Hgc.
          { rewrite Hg. simpl. destruct (decide _); [|done].
            by apply lookup_delete_ne. }
          destruct Hall as [[Hall1 Hall2]|[Hall1 Hall2]].
          -- left. split; [set_solver|congruence].
          -- right. split; [set_solver|by apply refused_call_app_r]. }
  destruct res as [?|exn].
  - apply (Hgoal w1 []); [by rewrite app_nil_r|done..].
  - apply (Hgoal (emit (LogCleanupFailed c0 exn) w1) [LogCleanupFailed c0 exn]);
      done.
Qed.

(** X9: a global cleanup never adds a chat to the active set, and removes
    one only if a deletion or report call that the sweep made for that
    chat was answered with [Unauthorized]: the call is in the trace of the
    sweep, and the answer is the one the environment gave at the tick of
    that call.  A chat none of whose calls is so answered keeps its
    membership and its invite-name entry, whatever else fails.  The ticks
    read off the trace are those of the run: the sweep ends one tick, the
    clock reading of the prune, after the last of them. *)
Theorem total_cleanup_abandons_only_unauthorized w b :
  let w' := (_perform_total_cleanup env w b).1 in
  let b' := (_perform_total_cleanup env w b).2 in
  let calls := timed_calls (tick w) (new_events w w') in
  active_groups b' ⊆ active_groups b ∧
  tick w' = S (next_tick (tick w) (new_events w w')) ∧
  (∀ c, c ∈ active_groups b → c ∉ active_groups b' →
        ∃ t, (∃ m, (t, CallDelete c m) ∈ calls ∧
                   delete_message env t c m = Raise Unauthorized) ∨
             (∃ text, (t, CallSend c text true) ∈ calls ∧
                      send_message env t c text true = Raise Unauthorized)) ∧
  (∀ c, (∀ t m, (t, CallDelete c m) ∈ calls →
                delete_message env t c m ≠ Raise Unauthorized) →
        (∀ t text, (t, CallSend c text true) ∈ calls →
                   send_message env t c text true ≠ Raise Unauthorized) →
        (c ∈ active_groups b' ↔ c ∈ active_groups b) ∧
        group_joiner_chats b' !! c = group_joiner_chats b !! c).
Proof.
  intros w' b' calls.
  destruct (total_cleanup_loop_lifecycle (elements (active_groups b)) w b)
    as (evs & Htr & Htk & Hloop).
  assert (trace w' = trace w ++ evs ∧ tick w' = S (next_tick (tick w) evs) ∧
          active_groups b'
          = active_groups (_total_cleanup_loop env (elements (active_groups b)) w b).2
          ∧ group_joiner_chats b'
          = group_joiner_chats
              (_total_cleanup_loop env (elements (active_groups b)) w b).2)
    as (Htr' & Htk' & Ha & Hg).
  { unfold w', b', _perform_total_cleanup, _deletion_limit.
    destruct (_total_cleanup_loop env (elements (active_groups b)) w b).
    simpl in *. by rewrite Htr, Htk. }
  assert (new_events w w' = evs) as Hnew.
  { unfold new_events. by rewrite Htr', drop_app_length. }
  unfold calls. rewrite Hnew, Ha, Hg. cbv zeta in Hloop. split_and!.
  - intros c Hc. destruct (Hloop c) as [[? _]|[? _]]; auto. tauto.
  - done.
  - intros c Hc Hnc. destruct (Hloop c) as [[? _]|[_ ?]]; [tauto|done].
  - intros c Hd Hs.
    destruct (Hloop c) as [?|[_ (t & [(m & Hin & Hm)|(text & Hin & Ht)])]];
      [done| |].
    + by destruct (Hd t m).
    + by destruct (Hs t text).
Qed.

(** The calls of the sweep over chats 3, 2 and 1 in which the report of
    chat 2 times out, with their ticks: ticks 0, 3 and 6 are the clock
    readings of the three cleanups and tick 9 that of the prune. *)
Example total_cleanup_chat2_fails_calls :
  let w' := (_perform_total_cleanup env_chat2_fails world0 bot3).1 in
  timed_calls 0 (new_events world0 w')
  = [(1%nat, CallDelete 3 13);
     (2%nat, CallSend 3 "Removed 1 recent messages. Failed to remove: 0." true);
     (4%nat, CallDelete 2 12);
     (5%nat, CallSend 2 "Removed 1 recent messages. Failed to remove: 0." true);
     (7%nat, CallDelete 1 11);
     (8%nat, CallSend 1 "Removed 1 recent messages. Failed to remove: 0." true)] ∧
  tick w' = 10%nat.
Proof. by vm_compute. Qed.

Lemma chat_cleanup_pk_unique c w b :
  pk_unique (messages b) → pk_unique (messages (_chat_cleanup env c w b).1.2).
Proof.
  intros Hpk.
  destruct (chat_cleanup_cases env c w b)
    as (k & dnew & flag & _ & _ & _ & _ & Hcase).
  cbv zeta in Hcase.
  set (b2 := with_messages (filter (λ r, message_id r ∉ message_id <$> dnew)) b)
    in *.
  assert (pk_unique (messages b2)) as Hpk2 by by apply pk_unique_filter.
  assert (pk_unique (messages (_abandon_chat c b2))) as Hpka
    by by apply pk_unique_filter.
  destruct flag; [by destruct Hcase as [_ ->]|].
  destruct Hcase as [_ ->].
  destruct (send_message env _ c _ true) as [m|exn]; simpl.
  - destruct (decide _); [|done]. by apply pk_unique_add_message.
  - by destruct exn.
Qed.

(** X10: a per-chat cleanup of any chat and a global cleanup keep the
    primary-key constraint of the ledger, whatever the transport
    answers. *)
Theorem cleanup_keeps_primary_key w b :
  pk_unique (messages b) →
  (∀ c, pk_unique (messages (_chat_cleanup env c w b).1.2)) ∧
  pk_unique (messages (_perform_total_cleanup env w b).2).
Proof.
  intros Hpk. split; [intros c; by apply chat_cleanup_pk_unique|].
  assert (∀ chats w0 b0, pk_unique (messages b0) →
            pk_unique (messages (_total_cleanup_loop env chats w0 b0).2))
    as Hloop.
  { induction chats as [|c chats IH]; intros w0 b0 Hpk0; [done|]. simpl.
    pose proof (chat_cleanup_pk_unique c w0 b0 Hpk0) as Hstep.
    destruct (_chat_cleanup env c w0 b0) as [[w1 b1] res].
    destruct res; by apply IH. }
  unfold _perform_total_cleanup, _deletion_limit.
  pose proof (Hloop (elements (active_groups b)) w b Hpk) as Hpk1.
  destruct (_total_cleanup_loop env (elements (active_groups b)) w b)
    as [w1 b1]. simpl. by apply pk_unique_filter.
Qed.

Lemma chat_cleanup_event_chats c w b :
  ∃ evs, trace (_chat_cleanup env c w b).1.1 = trace w ++ evs ∧
         Forall (λ ev, event_chat ev = c) evs.
Proof.
  destruct (chat_cleanup_events env c w b) as (k & tail & -> & Htail & _).
  eexists. split; [done|]. apply Forall_cons. split; [done|].
  apply Forall_app. split.
  - apply Forall_fmap, Forall_true. done.
  - destruct Htail as [->|[text ->]]; by repeat constructor.
Qed.

(** X11: every transport call and log line of a global cleanup is about
    a chat that was active when it started; with no active chat the
    global cleanup only reads the clock and prunes. *)
Theorem total_cleanup_calls_only_active_chats w b :
  Forall (λ ev, event_chat ev ∈ active_groups b)
    (new_events w (_perform_total_cleanup env w b).1) ∧
  (active_groups b = ∅ →
   _perform_total_cleanup env w b
   = (step w,
      with_messages
        (MessagesRepo.remove_outdated_messages
           (utcnow env (tick w) - timedelta_days 2)) b)).
Proof.
  assert (∀ chats w0 b0,
            ∃ evs, trace (_total_cleanup_loop env chats w0 b0).1
                   = trace w0 ++ evs ∧
                   Forall (λ ev, event_chat ev ∈ chats) evs) as Hloop.
  { induction chats as [|c chats IH]; intros w0 b0.
    { exists []. by rewrite app_nil_r. }
    simpl. destruct (chat_cleanup_event_chats c w0 b0) as (evs0 & Htr0 & Hevs0).
    destruct (_chat_cleanup env c w0 b0) as [[w1 b1] res]. simpl in Htr0.
    assert (Forall (λ ev, event_chat ev ∈ c :: chats) evs0) as Hevs0'.
    { eapply Forall_impl; [done|]. intros ev ->. by left. }
    destruct res as [?|exn].
    - destruct (IH w1 b1) as (evs & -> & Hevs). rewrite Htr0.
      exists (evs0 ++ evs). split; [by rewrite app_assoc|].
      apply Forall_app. split; [done|].
      eapply Forall_impl; [done|]. intros ev ?. by right.
    - destruct (IH (emit (LogCleanupFailed c exn) w1) b1) as (evs & -> & Hevs).
      simpl. rewrite Htr0.
      exists (evs0 ++ LogCleanupFailed c exn :: evs). split.
      + rewrite <-!app_assoc. reflexivity.
      + apply Forall_app. split; [done|]. apply Forall_cons. split; [by left|].
        eapply Forall_impl; [done|]. intros ev ?. by right. }
  split.
  - destruct (Hloop (elements (active_groups b)) w b) as (evs & Htr & Hevs).
    unfold _perform_total_cleanup, _deletion_limit.
    destruct (_total_cleanup_loop env (elements (active_groups b)) w b)
      as [w1 b1]. simpl in *. unfold new_events. simpl.
    rewrite Htr, drop_app_length.
    eapply Forall_impl; [done|]. intros ev. by rewrite elem_of_elements.
  - intros Hempty. unfold _perform_total_cleanup. rewrite Hempty.
    by rewrite elements_empty.
Qed.

End cleanup_more.

(** * Properties of the update handlers *)

Section handlers_facts.
Context (env : Env) (bot_name : string).
Implicit Types (w : World) (b : Bot) (c : Z) (m : Message) (jobs : list Job).

Lemma retain_message_group m b :
  in_group m →
  _retain_message (Some m) b
  = (with_messages (MessagesRepo.add_message (entity_of m)) b, Return ()).
Proof. intros Hg. unfold _retain_message. by rewrite decide_True. Qed.

Lemma retain_message_other m b :
  ¬ in_group m → _retain_message (Some m) b = (b, Return ()).
Proof. intros Hg. unfold _retain_message. by rewrite decide_False. Qed.

Lemma added_message_is_eligible m T cutoff :
  cutoff < msg_date m →
  entity_of m ∈ MessagesRepo.get_chat_messages
                 (MessagesRepo.add_message (entity_of m) T) (msg_chat_id m) cutoff.
Proof.
  intros Hlt. apply elem_of_get_chat_messages. split_and!; [|done..].
  apply elem_of_add_message. by left.
Qed.

(** X12: [_receive_incoming_message] raises [AttributeError] on an update
    without message; leaves everything as it is for a message outside a
    group or supergroup; and for a group message upserts its row, keeps
    every row with another [message_id], makes no transport call and
    schedules nothing; the row is then returned by [get_chat_messages]
    for every cutoff before the date of the message. *)
Theorem receive_incoming_message_tracks_group_messages update w b jobs :
  (upd_message update = None →
   _receive_incoming_message update w b jobs = (w, b, jobs, Raise AttributeError)) ∧
  (∀ m, upd_message update = Some m → ¬ in_group m →
        _receive_incoming_message update w b jobs = (w, b, jobs, Return None)) ∧
  (∀ m, upd_message update = Some m → in_group m →
        _receive_incoming_message update w b jobs
        = (w, with_messages (MessagesRepo.add_message (entity_of m)) b, jobs,
           Return None) ∧
        (∀ r, r ∈ messages b → message_id r ≠ msg_message_id m →
              r ∈ MessagesRepo.add_message (entity_of m) (messages b)) ∧
        ∀ cutoff, cutoff < msg_date m →
          entity_of m ∈ MessagesRepo.get_chat_messages
                         (MessagesRepo.add_message (entity_of m) (messages b))
                         (msg_chat_id m) cutoff).
Proof.
  unfold _receive_incoming_message, log_messages, keep_callback_messages.
  split_and!.
  - by intros ->.
  - intros m -> Hg. by rewrite retain_message_other.
  - intros m -> Hg. rewrite retain_message_group by done. split_and!.
    + done.
    + intros r Hr Hne. apply elem_of_add_message. by right.
    + intros cutoff. apply added_message_is_eligible.
Qed.

(** When no deletion in chat [c] is refused, a per-chat cleanup attempts
    every recent message of the chat. *)
Lemma chat_cleanup_attempts_all c w b e :
  (∀ t mid, delete_message env t c mid ≠ Raise Unauthorized) →
  e ∈ MessagesRepo.get_chat_messages (messages b) c
        (utcnow env (tick w) - timedelta_days 2) →
  (c, message_id e)
  ∈ deletion_attempts (new_events w (_chat_cleanup env c w b).1.1).
Proof.
  intros Hdel He.
  destruct (chat_cleanup_events env c w b)
    as (k & tail & Htr & Htail & Hk & Hlast & _).
  set (recent := MessagesRepo.get_chat_messages (messages b) c
                   (utcnow env (tick w) - timedelta_days 2)) in *.
  destruct Hlast as [->|(_ & _ & e' & _ & Hun)]; [|by destruct (Hdel _ _ Hun)].
  rewrite firstn_all in Htr.
  unfold new_events. rewrite Htr, drop_app_length.
  change (deletion_attempts (LogInitiated c :: ?l)) with (deletion_attempts l).
  rewrite deletion_attempts_app, deletion_attempts_deletions.
  apply elem_of_app. left.
  apply (list_elem_of_fmap_2 (λ e, (c, message_id e))). done.
Qed.

(** X13: in a group, [/cleanup] tracks the command message and schedules
    one per-chat cleanup of that chat in 2 seconds, with no transport
    call; when that job runs within the retention window and no deletion
    is refused with [Unauthorized], the command message itself is among
    the deletion attempts.  Outside a group nothing is tracked or
    scheduled and one reply is sent. *)
Theorem cleanup_command_schedules_job_and_is_deleted update m w b jobs :
  upd_message update = Some m →
  (in_group m →
   _cleanup env update w b jobs
   = (w, with_messages (MessagesRepo.add_message (entity_of m)) b,
      jobs ++ [mkJob 2 (msg_chat_id m)], Return None) ∧
   ∀ w1,
     (∀ t mid, delete_message env t (msg_chat_id m) mid ≠ Raise Unauthorized) →
     utcnow env (tick w1) - timedelta_days 2 < msg_date m →
     (msg_chat_id m, msg_message_id m)
     ∈ deletion_attempts
         (new_events w1
            (run_job env (mkJob 2 (msg_chat_id m)) w1
               (with_messages (MessagesRepo.add_message (entity_of m)) b)).1.1)) ∧
  (¬ in_group m →
   (_cleanup env update w b jobs).1.1.2 = b ∧
   (_cleanup env update w b jobs).1.2 = jobs ∧
   new_events w (_cleanup env update w b jobs).1.1.1
   = [CallSend (msg_chat_id m)
        "This command is not supposed to work here. Use /help to get more info."
        false]).
Proof.
  intros Hm. unfold _cleanup, keep_callback_messages. rewrite Hm. split.
  - intros Hg. rewrite retain_message_group by done.
    rewrite decide_True by done. split; [done|].
    intros w1 Hdel Hlt. unfold run_job, _perform_chat_cleanup. simpl.
    apply (chat_cleanup_attempts_all (msg_chat_id m) w1 _ (entity_of m));
      [done|]. simpl. by apply added_message_is_eligible.
  - intros Hg. rewrite retain_message_other by done.
    rewrite decide_False by done. unfold send_and_return.
    destruct (send_message env (tick w) (msg_chat_id m) _ false); simpl.
    all: split_and!; [done..|]; unfold new_events; simpl;
      by rewrite drop_app_length.
Qed.

(** X14: when the bot is removed from a group, [_user_removed] abandons
    the chat: the chat is not active any more and no row of it remains,
    not even the service message just retained (when its [message_id] is
    new, the state is that of [_abandon_chat]); when another user leaves,
    only the service message is retained; without [left_chat_member] the
    handler raises [AttributeError] after retaining the message. *)
Theorem user_removed_abandons_chat update m w b jobs :
  upd_message update = Some m → in_group m →
  (left_chat_member update = Some bot_name →
   _user_removed bot_name update w b jobs
   = (w, _abandon_chat (msg_chat_id m)
           (with_messages (MessagesRepo.add_message (entity_of m)) b),
      jobs, Return None) ∧
   (msg_chat_id m ∉ active_groups (_user_removed bot_name update w b jobs).1.1.2) ∧
   (∀ r, r ∈ messages (_user_removed bot_name update w b jobs).1.1.2 →
         chat_id r ≠ msg_chat_id m) ∧
   ((msg_message_id m ∉ message_id <$> messages b) →
    (_user_removed bot_name update w b jobs).1.1.2
    = _abandon_chat (msg_chat_id m) b)) ∧
  (∀ user, left_chat_member update = Some user → user ≠ bot_name →
   _user_removed bot_name update w b jobs
   = (w, with_messages (MessagesRepo.add_message (entity_of m)) b, jobs,
      Return None)) ∧
  (left_chat_member update = None →
   _user_removed bot_name update w b jobs
   = (w, with_messages (MessagesRepo.add_message (entity_of m)) b, jobs,
      Raise AttributeError)).
Proof.
  intros Hm Hg. unfold _user_removed, keep_callback_messages.
  rewrite Hm, retain_message_group by done. rewrite decide_True by done.
  split_and!.
  - intros ->. rewrite decide_True by done. simpl. split_and!.
    + done.
    + set_solver.
    + unfold MessagesRepo.delete_chat_messages.
      by intros r [? _]%list_elem_of_filter.
    + intros Hfresh. unfold _abandon_chat. simpl. f_equal.
      unfold MessagesRepo.delete_chat_messages, MessagesRepo.add_message.
      rewrite decide_False by done.
      rewrite filter_app, filter_cons_False, filter_nil, app_nil_r; [done|].
      simpl. by intros [].
  - intros user -> Hne. by rewrite decide_False.
  - by intros ->.
Qed.

Lemma user_added_loop_spec chat (new_users : list string) w b jobs :
  _user_added_loop env bot_name chat new_users w b jobs
  = if decide (bot_name ∈ new_users)
    then send_and_return env chat greeting w (add_active_group chat b) jobs
    else (w, b, jobs, Return None).
Proof.
  induction new_users as [|user rest IH].
  - by destruct (decide (bot_name ∈ [])) as [?%elem_of_nil|].
  - cbn [_user_added_loop].
    destruct (decide (user = bot_name)) as [->|Hne].
    + destruct (decide (bot_name ∈ bot_name :: rest)) as [|Hn]; [done|].
      destruct Hn. by left.
    + rewrite IH. apply decide_ext. rewrite elem_of_cons. naive_solver.
Qed.

(** X15: when the bot is among the new members of a group, [_user_added]
    makes the chat active and sends the greeting exactly once, however
    often the bot is listed; the chat is active even when the send fails,
    and the greeting is tracked when it comes back as a group message.
    When the bot is not among the new members, only the service message
    is retained. *)
Theorem user_added_activates_chat_when_bot_joins update m w b jobs :
  upd_message update = Some m → in_group m →
  (bot_name ∈ new_chat_members update →
   let r := _user_added env bot_name update w b jobs in
   new_events w r.1.1.1 = [CallSend (msg_chat_id m) greeting false] ∧
   active_groups r.1.1.2 = active_groups b ∪ {[msg_chat_id m]} ∧
   r.1.2 = jobs ∧
   match send_message env (tick w) (msg_chat_id m) greeting false with
   | Return out =>
       r.2 = Return (Some out) ∧
       messages r.1.1.2
       = (if decide (in_group out)
          then MessagesRepo.add_message (entity_of out) else id)
           (MessagesRepo.add_message (entity_of m) (messages b))
   | Raise e =>
       r.2 = Raise e ∧
       messages r.1.1.2 = MessagesRepo.add_message (entity_of m) (messages b)
   end) ∧
  ((bot_name ∉ new_chat_members update) →
   _user_added env bot_name update w b jobs
   = (w, with_messages (MessagesRepo.add_message (entity_of m)) b, jobs,
      Return None)).
Proof.
  intros Hm Hg. unfold _user_added, keep_callback_messages.
  rewrite Hm, retain_message_group by done. rewrite decide_True by done.
  rewrite user_added_loop_spec. split.
  - intros Hbot. cbv zeta. rewrite decide_True by done.
    unfold send_and_return.
    destruct (send_message env (tick w) (msg_chat_id m) greeting false)
      as [out|e]; simpl.
    + unfold in_group.
      destruct (decide (msg_chat_type out = GROUP ∨ msg_chat_type out = SUPERGROUP));
        simpl; unfold new_events; simpl; by rewrite drop_app_length.
    + unfold new_events. simpl. by rewrite drop_app_length.
  - intros Hbot. by rewrite decide_False.
Qed.

(** X16: [_chat_created] makes the chat of the update active and sends
    one greeting whatever the chat type, and on a group update that lists
    the bot among the new members it does exactly what [_user_added]
    does. *)
Theorem chat_created_acts_as_bot_added update m w b jobs :
  upd_message update = Some m →
  active_groups (_chat_created env update w b jobs).1.1.2
  = active_groups b ∪ {[msg_chat_id m]} ∧
  new_events w (_chat_created env update w b jobs).1.1.1
  = [CallSend (msg_chat_id m) greeting false] ∧
  (in_group m → bot_name ∈ new_chat_members update →
   _chat_created env update w b jobs
   = _user_added env bot_name update w b jobs).
Proof.
  intros Hm. unfold _chat_created, _user_added, keep_callback_messages.
  rewrite Hm. split_and!.
  - destruct (_retain_message (Some m) b) as [b1 [[]|e]] eqn:Hret;
      [|unfold _retain_message in Hret; by destruct (decide _)].
    assert (active_groups b1 = active_groups b) as <-.
    { unfold _retain_message in Hret. destruct (decide _); by simplify_eq. }
    unfold send_and_return.
    destruct (send_message env (tick w) (msg_chat_id m) greeting false)
      as [out|e]; simpl; [|done].
    unfold _retain_message. by destruct (decide _).
  - destruct (_retain_message (Some m) b) as [b1 [[]|e]] eqn:Hret;
      [|unfold _retain_message in Hret; by destruct (decide _)].
    unfold send_and_return.
    destruct (send_message env (tick w) (msg_chat_id m) greeting false)
      as [out|e]; simpl.
    + unfold _retain_message. destruct (decide _); simpl;
        unfold new_events; simpl; by rewrite drop_app_length.
    + unfold new_events; simpl; by rewrite drop_app_length.
  - intros Hg Hbot. rewrite retain_message_group by done.
    rewrite decide_True by done. rewrite user_added_loop_spec.
    by rewrite decide_True.
Qed.

Lemma handle_chat_id_migration_idemp old_chat_id new_chat_id b :
  _handle_chat_id_migration old_chat_id new_chat_id
    (_handle_chat_id_migration old_chat_id new_chat_id b)
  = _handle_chat_id_migration old_chat_id new_chat_id b.
Proof.
  unfold _handle_chat_id_migration. simpl. f_equal.
  - set_solver.
  - apply update_chat_id_idemp.
Qed.

(** X17: the two status updates of one migration (from the old group with
    [migrate_to_chat_id], from the new supergroup with
    [migrate_from_chat_id]) and the [ChatMigrated] error of a call in the
    old chat all apply the same remap, and each of them leaves the
    remapped state unchanged: handling several of them is handling
    one. *)
Theorem chat_migration_notifications_agree
    (old_chat_id new_chat_id : Z) (mid1 mid2 d1 d2 : Z)
    (l1 l2 : list string) (lc1 lc2 : option string) w b jobs :
  old_chat_id ≠ 0 → new_chat_id ≠ 0 →
  let u_old :=
    mkUpdate (Some (mkMessage mid1 old_chat_id GROUP d1)) l1 lc1
      None (Some new_chat_id) in
  let u_new :=
    mkUpdate (Some (mkMessage mid2 new_chat_id SUPERGROUP d2)) l2 lc2
      (Some old_chat_id) None in
  let b1 := _handle_chat_id_migration old_chat_id new_chat_id b in
  _chat_migrated u_old w b jobs = (w, b1, jobs, Return None) ∧
  _chat_migrated u_new w b jobs = (w, b1, jobs, Return None) ∧
  _error_callback (Some u_old) (ChatMigrated new_chat_id) b = (b1, Return ()) ∧
  _chat_migrated u_old w b1 jobs = (w, b1, jobs, Return None) ∧
  _chat_migrated u_new w b1 jobs = (w, b1, jobs, Return None) ∧
  _error_callback (Some u_old) (ChatMigrated new_chat_id) b1 = (b1, Return ()).
Proof.
  intros Hold Hnew u_old u_new b1.
  unfold _chat_migrated, _error_callback, u_old, u_new, b1. simpl.
  rewrite !(decide_False (P := old_chat_id = 0)) by done.
  rewrite !(decide_False (P := new_chat_id = 0)) by done.
  rewrite !handle_chat_id_migration_idemp. done.
Qed.

Lemma keep_callback_messages_pk_unique (callback : Callback) :
  (∀ update w b jobs, pk_unique (messages b) →
     pk_unique (messages (callback update w b jobs).1.1.2)) →
  ∀ update w b jobs, pk_unique (messages b) →
    pk_unique (messages (keep_callback_messages callback update w b jobs).1.1.2).
Proof.
  assert (∀ o b, pk_unique (messages b) →
            pk_unique (messages (_retain_message o b).1)) as Hretain.
  { intros [m|] b Hpk; simpl; [|done].
    destruct (decide _); [|done]. by apply pk_unique_add_message. }
  intros Hcb update w b jobs Hpk. unfold keep_callback_messages.
  pose proof (Hretain (upd_message update) b Hpk) as Hpk1.
  destruct (_retain_message (upd_message update) b) as [b1 [[]|e]]; [|done].
  simpl in Hpk1. pose proof (Hcb update w b1 jobs Hpk1) as Hpk2.
  destruct (callback update w b1 jobs) as [[[w2 b2] jobs2] [[out|]|e]];
    [|done..].
  simpl in Hpk2. pose proof (Hretain (Some out) b2 Hpk2) as Hpk3.
  by destruct (_retain_message (Some out) b2) as [b3 [[]|e]].
Qed.

(** X18: every update handler, the scheduled job and the error callback
    keep the primary-key constraint of the ledger. *)
Theorem handlers_keep_primary_key update w b jobs (job : Job)
    (failed : option Update) (error : Exn) :
  pk_unique (messages b) →
  pk_unique (messages (_receive_incoming_message update w b jobs).1.1.2) ∧
  pk_unique (messages (_chat_created env update w b jobs).1.1.2) ∧
  pk_unique (messages (_user_added env bot_name update w b jobs).1.1.2) ∧
  pk_unique (messages (_user_removed bot_name update w b jobs).1.1.2) ∧
  pk_unique (messages (_chat_migrated update w b jobs).1.1.2) ∧
  pk_unique (messages (_cleanup env update w b jobs).1.1.2) ∧
  pk_unique (messages (run_job env job w b).1.2) ∧
  pk_unique (messages (_error_callback failed error b).1).
Proof.
  assert (∀ chat text w0 b0 jobs0,
            (send_and_return env chat text w0 b0 jobs0).1.1.2 = b0) as Hsend.
  { intros. unfold send_and_return. by destruct (send_message _ _ _ _ _). }
  assert (∀ o n b0, pk_unique (messages b0) →
            pk_unique (messages (_handle_chat_id_migration o n b0))) as Hmig.
  { intros o n b0 Hpk. simpl. unfold pk_unique.
    by rewrite update_chat_id_ids. }
  intros Hpk. split_and!.
  - by apply keep_callback_messages_pk_unique.
  - apply keep_callback_messages_pk_unique; [|done].
    intros u w0 b0 jobs0 Hpk0. destruct (upd_message u); [|done].
    by rewrite Hsend.
  - apply keep_callback_messages_pk_unique; [|done].
    intros u w0 b0 jobs0 Hpk0. destruct (upd_message u); [|done].
    destruct (decide _); [|done]. rewrite user_added_loop_spec.
    destruct (decide _); [|done]. by rewrite Hsend.
  - apply keep_callback_messages_pk_unique; [|done].
    intros u w0 b0 jobs0 Hpk0. destruct (upd_message u); [|done].
    destruct (decide _); [|done]. destruct (left_chat_member u); [|done].
    destruct (decide _); [|done]. simpl. by apply pk_unique_filter.
  - unfold _chat_migrated. destruct (upd_message update); [|done].
    destruct (decide _); [|done]. by apply Hmig.
  - apply keep_callback_messages_pk_unique; [|done].
    intros u w0 b0 jobs0 Hpk0. destruct (upd_message u) as [m0|]; [|done].
    destruct (decide _); [done|].
    pose proof (Hsend (msg_chat_id m0)
      "This command is not supposed to work here. Use /help to get more info."
      w0 b0 jobs0) as Hs.
    destruct (send_and_return env _ _ w0 b0 jobs0) as [[[w' b'] jobs'] [?|?]];
      simpl in *; by subst.
  - unfold run_job, _perform_chat_cleanup. by apply chat_cleanup_pk_unique.
  - unfold _error_callback. destruct error; try done.
    destruct failed as [u|]; [|done]. destruct (upd_message u); [|done].
    by apply Hmig.
Qed.

End handlers_facts.

(** * Successive cleanups and the report *)

Section cleanup_again.
Context (env : Env).
Implicit Types (w : World) (b : Bot) (c : Z).

Lemma successful_deletions_all c t (l : list MessageEntity) :
  (∀ t' mid, delete_message env t' c mid = Return true) →
  successful_deletions env c t l = l.
Proof.
  intros Hdel. revert t. induction l as [|e l IH]; intros t; [done|].
  rewrite successful_deletions_cons, Hdel, IH. by rewrite decide_True.
Qed.

Lemma NoDup_singleton_eq (l : list MessageEntity) x :
  NoDup l → (∀ r, r ∈ l ↔ r = x) → l = [x].
Proof.
  intros Hnd Hin. destruct l as [|y l].
  - exfalso. by apply (not_elem_of_nil x), Hin.
  - assert (y = x) as -> by (apply Hin; by left).
    f_equal. destruct l as [|z l]; [done|].
    assert (z = x) as -> by (apply Hin; right; by left).
    apply NoDup_cons in Hnd as [Hx _]. destruct Hx. by left.
Qed.

(** X19: the report of a cleanup is cleaned up next.  After a per-chat
    cleanup in which every deletion succeeded and the report came back as
    a group message of the chat, the ledger holds the report and the rows
    that were not selected (but the one stored under the report's
    [message_id]); a later cleanup of the chat, while the report is still
    within the retention window, selects and attempts exactly the
    report. *)
Theorem report_is_deleted_by_next_cleanup c w w1 b out :
  pk_unique (messages b) →
  (∀ t mid, delete_message env t c mid = Return true) →
  send_message env
    (tick w + 1 +
     length (MessagesRepo.get_chat_messages (messages b) c
               (utcnow env (tick w) - timedelta_days 2)))%nat c
    (report_message
       (length (MessagesRepo.get_chat_messages (messages b) c
                  (utcnow env (tick w) - timedelta_days 2))) 0) true
  = Return out →
  msg_chat_id out = c → in_group out →
  utcnow env (tick w) ≤ utcnow env (tick w1) →
  utcnow env (tick w1) - timedelta_days 2 < msg_date out →
  let b1 := (_chat_cleanup env c w b).1.2 in
  (∀ r, r ∈ messages b1 ↔
        r = entity_of out ∨
        (r ∈ messages b ∧ message_id r ≠ msg_message_id out ∧
         ¬ (chat_id r = c ∧
            utcnow env (tick w) - timedelta_days 2 < timestamp r))) ∧
  MessagesRepo.get_chat_messages (messages b1) c
    (utcnow env (tick w1) - timedelta_days 2) = [entity_of out] ∧
  deletion_attempts (new_events w1 (_chat_cleanup env c w1 b1).1.1)
  = [(c, msg_message_id out)].
Proof.
  intros Hpk Hdel Hsend Hc Hg Hclock Hdate b1.
  set (recent := MessagesRepo.get_chat_messages (messages b) c
                   (utcnow env (tick w) - timedelta_days 2)) in *.
  assert (messages b1
          = MessagesRepo.add_message (entity_of out)
              (filter (λ r, message_id r ∉ message_id <$> recent) (messages b)))
    as Hb1.
  { unfold b1.
    destruct (chat_cleanup_cases_exact env c w b) as (k & flag & Hk & Hu & Hcase).
    cbv zeta in Hcase. fold recent in Hk, Hu, Hcase.
    destruct flag.
    { destruct Hcase as [Hk0 _].
      destruct (lookup_lt_is_Some_2 recent (k - 1)) as [e He]; [lia|].
      assert (delete_message env (S (tick w) + (k - 1))%nat c (message_id e)
              = Raise Unauthorized) as Hun.
      { apply Hu; [lia|done|]. split; [done|lia]. }
      by rewrite Hdel in Hun. }
    destruct Hcase as [-> Hcase]. rewrite firstn_all in Hcase.
    rewrite successful_deletions_all in Hcase by done.
    rewrite Z.sub_diag in Hcase. simpl in Hcase.
    replace (S (tick w + length recent)) with (tick w + 1 + length recent)%nat
      in Hcase by lia.
    rewrite Hsend in Hcase. rewrite Hcase. simpl.
    unfold in_group in Hg. by rewrite decide_True. }
  assert (∀ r, r ∈ messages b1 ↔
            r = entity_of out ∨
            (r ∈ messages b ∧ message_id r ≠ msg_message_id out ∧
             ¬ (chat_id r = c ∧
                utcnow env (tick w) - timedelta_days 2 < timestamp r)))
    as Hrows.
  { intros r. rewrite Hb1, elem_of_add_message, list_elem_of_filter. simpl.
    split.
    - intros [->|[[Hid Hr] Hne]]; [by left|]. right. split_and!; [done..|].
      intros [Hcr Hlt]. apply Hid. apply list_elem_of_fmap. exists r.
      split; [done|]. by apply elem_of_get_chat_messages.
    - intros [->|(Hr & Hne & Hsel)]; [by left|]. right. split; [|done].
      split; [|done]. intros (d & Hid & Hd)%list_elem_of_fmap.
      apply elem_of_get_chat_messages in Hd as (Hd & Hcd & Hlt).
      assert (r = d) as -> by by apply (pk_unique_inj (messages b)).
      by apply Hsel. }
  assert (MessagesRepo.get_chat_messages (messages b1) c
            (utcnow env (tick w1) - timedelta_days 2) = [entity_of out])
    as Hrecent1.
  { apply NoDup_singleton_eq.
    - apply get_chat_messages_NoDup. rewrite Hb1.
      by apply pk_unique_add_message, pk_unique_filter.
    - intros r. rewrite elem_of_get_chat_messages, Hrows. split.
      + intros ([->|(_ & _ & Hsel)] & Hcr & Hlt); [done|].
        destruct Hsel. split; [done|lia].
      + intros ->. split_and!; [by left|done..]. }
  split_and!; [done..|].
  destruct (chat_cleanup_events env c w1 b1)
    as (k & tail & Htr & Htail & Hk & Hlast & _).
  rewrite Hrecent1 in Htr, Hk, Hlast. simpl in Hk.
  assert (k = 1%nat) as -> by (destruct Hlast as [?|[? _]]; simpl in *; lia).
  unfold new_events. rewrite Htr, drop_app_length. simpl.
  destruct Htail as [->|[text ->]]; done.
Qed.

(** X20: a per-chat cleanup logs its start, makes deletion calls for a
    prefix of the recent messages and sends at most one message, silently
    and to its own chat: the report, sent only after all recent messages
    were attempted, whose two counts are natural numbers that add up to
    the number of recent messages. *)
Theorem chat_cleanup_sends_at_most_one_report c w b :
  let recent :=
    MessagesRepo.get_chat_messages (messages b) c
      (utcnow env (tick w) - timedelta_days 2) in
  ∃ (k : nat) (tail : list Event),
    new_events w (_chat_cleanup env c w b).1.1
    = LogInitiated c ::
        ((λ e, CallDelete c (message_id e)) <$> take k recent) ++ tail ∧
    (tail = [] ∨
     ∃ n : nat, (n ≤ length recent)%nat ∧ k = length recent ∧
       tail = [CallSend c
                 (report_message n (Z.of_nat (length recent - n))) true]).
Proof.
  intros recent.
  destruct (chat_cleanup_cases env c w b)
    as (k & dnew & flag & Hk & Hsub & Hlen & Hu & Hcase).
  cbv zeta in Hcase. fold recent in Hk, Hsub, Hu, Hcase.
  destruct flag.
  - destruct Hcase as [_ ->]. exists k, []. split; [|by left].
    unfold new_events. simpl. by rewrite app_nil_r, drop_app_length.
  - destruct Hcase as [-> Hcase].
    eexists (length recent), [CallSend c _ true]. split.
    + rewrite Hcase.
      destruct (send_message env _ c _ true) as [m|exn]; [|destruct exn].
      all: unfold new_events; simpl; rewrite <-app_assoc;
        by rewrite drop_app_length.
    + right. exists (length dnew). split_and!; [done..|].
      by rewrite Nat2Z.inj_sub.
Qed.

End cleanup_again.

(** X2 at the third row of the ledger of chat 100. *)
Lemma remove_message_removes_that_row_only_witness :
  MessagesRepo.remove_message (mkMessageEntity 3 100 1030) ledger5
  = filter (λ r, r ≠ mkMessageEntity 3 100 1030) ledger5.
Proof.
  apply (remove_message_removes_that_row_only ledger5
           (mkMessageEntity 3 100 1030)).
  - apply (bool_decide_unpack _); vm_compute; exact I.
  - apply (bool_decide_unpack _); vm_compute; exact I.
Defined.

(** X7 at chat 100 with five recent messages, two of which fail. *)
Lemma chat_cleanup_accounting_witness :
  new_events world0 (_chat_cleanup env_transient 100 world0 bot5).1.1
  = [LogInitiated 100; CallDelete 100 1; CallDelete 100 2; CallDelete 100 3;
     CallDelete 100 4; CallDelete 100 5;
     CallSend 100 "Removed 3 recent messages. Failed to remove: 2." true].
Proof.
  destruct (chat_cleanup_accounting env_transient 100 world0 bot5)
    as (Hevents & _).
  - apply (bool_decide_unpack _); vm_compute; exact I.
  - intros t mid. simpl. by repeat destruct (decide _).
  - exact Hevents.
Defined.

(** X8 at chat 100, where the third deletion is refused. *)
Lemma unauthorized_deletion_abandons_chat_witness :
  _chat_cleanup env_third_unauthorized 100 world0 bot5
  = ({| tick := 4;
        trace := [LogInitiated 100; CallDelete 100 1; CallDelete 100 2;
                  CallDelete 100 3] |},
     _abandon_chat 100 bot5, Return ()).
Proof.
  apply (unauthorized_deletion_abandons_chat env_third_unauthorized 100 world0
           bot5 2 (mkMessageEntity 3 100 1030)).
  - apply (bool_decide_unpack _); vm_compute; exact I.
  - by vm_compute.
  - by vm_compute.
  - intros [|[|i]] e' Hi He'; [| |lia]; vm_compute in He'; by simplify_eq.
Defined.

(** X10 at a global cleanup of the ledger of chat 100. *)
Lemma cleanup_keeps_primary_key_witness :
  pk_unique (messages (_perform_total_cleanup env_ok world0 bot5).2).
Proof.
  apply (cleanup_keeps_primary_key env_ok world0 bot5).
  apply (bool_decide_unpack _); vm_compute; exact I.
Defined.

(** X13 at a command sent in supergroup 100. *)
Lemma cleanup_command_schedules_job_and_is_deleted_witness :
  _cleanup env_ok update_plain world0 bot5 []
  = (world0,
     with_messages
       (MessagesRepo.add_message (mkMessageEntity 42 100 1060)) bot5,
     [mkJob 2 100], Return None).
Proof.
  apply (cleanup_command_schedules_job_and_is_deleted env_ok update_plain
           (mkMessage 42 100 SUPERGROUP 1060) world0 bot5 []).
  - reflexivity.
  - by right.
Defined.

(** X14 at supergroup 100, which the bot leaves. *)
Lemma user_removed_abandons_chat_witness :
  (_user_removed bot0_name update_bot_leaves world0 bot5 []).1.1.2
  = _abandon_chat 100 bot5.
Proof.
  apply (user_removed_abandons_chat bot0_name update_bot_leaves
           (mkMessage 42 100 SUPERGROUP 1060) world0 bot5 []).
  - reflexivity.
  - by right.
  - reflexivity.
  - intros Hin. apply (bool_decide_pack _) in Hin. vm_compute in Hin. exact Hin.
Defined.

(** X15 at supergroup 100, which the bot joins with another user. *)
Lemma user_added_activates_chat_when_bot_joins_witness :
  active_groups
    (_user_added env_ok bot0_name update_bot_joins world0 bot_idle []).1.1.2
  = active_groups bot_idle ∪ {[100]}.
Proof.
  apply (user_added_activates_chat_when_bot_joins env_ok bot0_name
           update_bot_joins (mkMessage 42 100 SUPERGROUP 1060)
           world0 bot_idle []).
  - reflexivity.
  - by right.
  - apply (bool_decide_unpack _); vm_compute; exact I.
Defined.

(** X16 at the same update. *)
Lemma chat_created_acts_as_bot_added_witness :
  _chat_created env_ok update_bot_joins world0 bot_idle []
  = _user_added env_ok bot0_name update_bot_joins world0 bot_idle [].
Proof.
  apply (chat_created_acts_as_bot_added env_ok bot0_name update_bot_joins
           (mkMessage 42 100 SUPERGROUP 1060) world0 bot_idle []).
  - reflexivity.
  - by right.
  - apply (bool_decide_unpack _); vm_compute; exact I.
Defined.

(** X17 at the migration of group -5 to supergroup -1005: the second notification after the first. *)
Lemma chat_migration_notifications_agree_witness :
  _chat_migrated
    (mkUpdate (Some (mkMessage 8 (-1005) SUPERGROUP 1070)) [] None (Some (-5)) None)
    world0 (_handle_chat_id_migration (-5) (-1005) bot5) []
  = (world0, _handle_chat_id_migration (-5) (-1005) bot5, [], Return None).
Proof.
  apply (chat_migration_notifications_agree (-5) (-1005) 7 8 1065 1070
           [] [] None None world0 bot5 []); done.
Defined.

(** X18 at the removal of the bot from supergroup 100. *)
Lemma handlers_keep_primary_key_witness :
  pk_unique
    (messages (_user_removed bot0_name update_bot_leaves world0 bot5 []).1.1.2).
Proof.
  apply (handlers_keep_primary_key env_ok bot0_name update_bot_leaves world0
           bot5 [] (mkJob 2 100) None Unauthorized).
  apply (bool_decide_unpack _); vm_compute; exact I.
Defined.

(** X19 at two cleanups of chat 100 in a row. *)
Lemma report_is_deleted_by_next_cleanup_witness :
  deletion_attempts
    (new_events world0
       (_chat_cleanup env_ok 100 world0
          (_chat_cleanup env_ok 100 world0 bot5).1.2).1.1)
  = [(100, 77)].
Proof.
  apply (report_is_deleted_by_next_cleanup env_ok 100 world0 world0 bot5
           (mkMessage 77 100 SUPERGROUP now0)).
  - apply (bool_decide_unpack _); vm_compute; exact I.
  - done.
  - done.
  - done.
  - by right.
  - done.
  - by vm_compute.
Defined.
